(** * Live-session layer of the Wizard Game server

    A shallow embedding of the Socket.IO part of [server.js]: the two
    registry maps [activePlayers] and [playerSockets], the [recentSpells]
    buffer, the per-socket event handlers, the periodic spell cleanup, and
    the REST position update of [routes/game.js] that writes into the same
    maps.  Handlers are state-passing functions returning the new state and
    the list of emissions they perform. *)

From Stdlib Require Import List String ZArith Lia Bool Arith.
From Stdlib Require Import Sorted.
From Equations Require Import Equations.
From Equations.Prop Require Import Logic.
Import ListNotations.

Local Open Scope string_scope.
Local Open Scope list_scope.

(** ** JavaScript [Map] with string keys

    A [Map] iterates in insertion order and [set] on a key that is already
    present keeps the key's place, so the map is an association list whose
    keys are pairwise distinct. *)

Module JSMap.

Section WithValue.
Context {V : Type}.

Definition t : Type := list (string * V).

Definition empty : t := [].

Fixpoint get (k : string) (m : t) : option V :=
  match m with
  | [] => None
  | (k', v) :: m' => if k =? k' then Some v else get k m'
  end.

Definition has (k : string) (m : t) : bool :=
  match get k m with Some _ => true | None => false end.

Fixpoint set (k : string) (v : V) (m : t) : t :=
  match m with
  | [] => [(k, v)]
  | (k', v') :: m' =>
      if k =? k' then (k, v) :: m' else (k', v') :: set k v m'
  end.

Fixpoint delete (k : string) (m : t) : t :=
  match m with
  | [] => []
  | (k', v') :: m' =>
      if k =? k' then delete k m' else (k', v') :: delete k m'
  end.

Definition keys (m : t) : list string := map fst m.

Definition values (m : t) : list V := map snd m.

Definition size (m : t) : nat := List.length m.

(** Representation invariant: keys are pairwise distinct. *)
Definition wf (m : t) : Prop := NoDup (keys m).

End WithValue.

Arguments t : clear implicits.

End JSMap.

(** ** Data carried by the events *)

Module Position.
Record t := { x : Z; y : Z }.
Definition origin : t := {| x := 0; y := 0 |}.
End Position.

Module Color.
Record t := { r : Z; g : Z; b : Z; a : Z }.
Definition white : t := {| r := 1; g := 1; b := 1; a := 1 |}.
End Color.

(** The object stored in [playerSockets] under a socket id.  [health] and
    [maxHealth] are written by the REST position update from request fields
    that may be missing, hence optional; [zoneId] is absent until then. *)
Record playerData := {
  playerId : string;
  username : string;
  house : string;
  position : Position.t;
  health : option Z;
  maxHealth : option Z;
  zoneId : option string
}.

(** Payload of ['player:join']. *)
Module Join.
Record data := {
  playerId : string;
  username : string;
  house : string;
  position : option Position.t
}.
End Join.

(** Payload of ['player:move']. *)
Module Move.
Record data := { position : Position.t }.
End Move.

(** Payload of ['spell:cast']. *)
Module Spell.
Record data := {
  spellName : string;
  position : Position.t;
  direction : Position.t;
  color : option Color.t;
  damage : option Z;
  speed : option Z
}.
End Spell.

(** Payload of ['damage:dealt']. *)
Module Damage.
Record data := { targetId : string; damage : Z; source : string }.
End Damage.

(** Payload of ['player:death']. *)
Module Death.
Record data := { killerId : option string }.
End Death.

(** Payload of ['chat:message']. *)
Module Chat.
Record data := { message : string }.
End Chat.

(** Body of [POST /player/position]. *)
Module PositionBody.
Record data := {
  playerId : string;
  position : option Position.t;
  zoneId : option string;
  health : option Z;
  maxHealth : option Z
}.
End PositionBody.

(** The four fields sent in ['players:list'] entries and in
    ['player:joined']. *)
Module Public.
Record t := {
  playerId : string;
  username : string;
  house : string;
  position : Position.t
}.
End Public.

(** [moveData] of the ['player:move'] handler. *)
Module Moved.
Record t := {
  playerId : string;
  username : string;
  house : string;
  position : Position.t;
  health : option Z;
  maxHealth : option Z
}.
End Moved.

(** [spellData] of the ['spell:cast'] handler; also the entries of
    [recentSpells]. *)
Record spellData := {
  casterId : string;
  casterName : string;
  spellName : string;
  spellPosition : Position.t;
  direction : Position.t;
  color : Color.t;
  damage : Z;
  speed : Z;
  timestamp : Z
}.

(** Outbound events. *)
Inductive message :=
| PlayersList (players : list Public.t)
| PlayerJoined (p : Public.t)
| PlayerMoved (m : Moved.t)
| SpellCasted (s : spellData)
| DamageReceived (attackerId : string) (dmg : Z) (src : string)
| PlayerDied (victim : string) (killerId : option string)
| ChatMessage (user hs msg : string) (time : Z)
| PlayerLeft (left : string).

(** The four ways the handlers emit. *)
Inductive emission :=
| SocketEmit (c : string) (m : message)        (* socket.emit *)
| BroadcastEmit (c : string) (m : message)     (* socket.broadcast.emit *)
| IoEmit (m : message)                         (* io.emit *)
| IoToEmit (room : string) (m : message).      (* io.to(room).emit *)

(** ** Global real-time state *)

Definition MAX_SPELL_HISTORY : nat := 50.
Definition SPELL_TIMEOUT : Z := 5000.

(** [connected] lists the ids of the sockets Socket.IO currently holds
    open; the other three fields are the module-level variables of
    [server.js]. *)
Record state := {
  connected : list string;
  activePlayers : JSMap.t string;
  playerSockets : JSMap.t playerData;
  recentSpells : list spellData
}.

Definition initial : state :=
  {| connected := []; activePlayers := JSMap.empty;
     playerSockets := JSMap.empty; recentSpells := [] |}.

(** JavaScript truthiness of a string and of a number. *)
Definition truthy_string (s : string) : bool := negb (s =? "").
Definition truthy_number (n : Z) : bool := negb (n =? 0)%Z.

(** [v || d] for an optional number. *)
Definition number_or (v : option Z) (d : Z) : Z :=
  match v with
  | Some n => if truthy_number n then n else d
  | None => d
  end.

(** [v || d] for an optional object. *)
Definition object_or {A : Type} (v : option A) (d : A) : A :=
  match v with Some o => o | None => d end.

(** ** Event handlers of [io.on('connection', ...)]

    [c] is [socket.id] of the socket the handler was installed on. *)

Definition with_registry (st : state) (ap : JSMap.t string)
  (ps : JSMap.t playerData) : state :=
  {| connected := connected st; activePlayers := ap;
     playerSockets := ps; recentSpells := recentSpells st |}.

Definition to_public (p : playerData) : Public.t :=
  {| Public.playerId := playerId p; Public.username := username p;
     Public.house := house p; Public.position := position p |}.

Definition on_player_join (c : string) (data : Join.data) (st : state)
  : state * list emission :=
  let pid := Join.playerId data in
  let ap := JSMap.set pid c (activePlayers st) in
  let ps := JSMap.set c
              {| playerId := pid;
                 username := Join.username data;
                 house := Join.house data;
                 position := object_or (Join.position data) Position.origin;
                 health := Some 100%Z;
                 maxHealth := Some 100%Z;
                 zoneId := None |}
              (playerSockets st) in
  let currentPlayers :=
    map to_public
      (filter (fun p => negb (playerId p =? pid)) (JSMap.values ps)) in
  let joinedData :=
    {| Public.playerId := pid;
       Public.username := Join.username data;
       Public.house := Join.house data;
       Public.position := object_or (Join.position data) Position.origin |} in
  (with_registry st ap ps,
   [SocketEmit c (PlayersList currentPlayers);
    BroadcastEmit c (PlayerJoined joinedData)]).

Definition set_position (p : playerData) (pos : Position.t) : playerData :=
  {| playerId := playerId p; username := username p; house := house p;
     position := pos; health := health p; maxHealth := maxHealth p;
     zoneId := zoneId p |}.

Definition on_player_move (c : string) (data : Move.data) (st : state)
  : state * list emission :=
  match JSMap.get c (playerSockets st) with
  | Some pd =>
      let ps := JSMap.set c (set_position pd (Move.position data))
                  (playerSockets st) in
      let moveData :=
        {| Moved.playerId := playerId pd;
           Moved.username := username pd;
           Moved.house := house pd;
           Moved.position := Move.position data;
           Moved.health := health pd;
           Moved.maxHealth := maxHealth pd |} in
      (with_registry st (activePlayers st) ps,
       [BroadcastEmit c (PlayerMoved moveData)])
  | None => (st, [])
  end.

(** [recentSpells.push(spellData)] followed by the capacity check. *)
Definition push_spell (sp : spellData) (buf : list spellData)
  : list spellData :=
  let buf' := buf ++ [sp] in
  if (MAX_SPELL_HISTORY <? List.length buf')%nat then tl buf' else buf'.

Definition on_spell_cast (c : string) (data : Spell.data) (now : Z)
  (st : state) : state * list emission :=
  match JSMap.get c (playerSockets st) with
  | Some pd =>
      let sp :=
        {| casterId := playerId pd;
           casterName := username pd;
           spellName := Spell.spellName data;
           spellPosition := Spell.position data;
           direction := Spell.direction data;
           color := object_or (Spell.color data) Color.white;
           damage := number_or (Spell.damage data) 10;
           speed := number_or (Spell.speed data) 5;
           timestamp := now |} in
      ({| connected := connected st; activePlayers := activePlayers st;
          playerSockets := playerSockets st;
          recentSpells := push_spell sp (recentSpells st) |},
       [BroadcastEmit c (SpellCasted sp)])
  | None => (st, [])
  end.

Definition on_damage_dealt (c : string) (data : Damage.data) (st : state)
  : state * list emission :=
  match JSMap.get c (playerSockets st) with
  | Some pd =>
      match JSMap.get (Damage.targetId data) (activePlayers st) with
      | Some targetSocketId =>
          if truthy_string targetSocketId then
            (st, [IoToEmit targetSocketId
                    (DamageReceived (playerId pd) (Damage.damage data)
                       (Damage.source data))])
          else (st, [])
      | None => (st, [])
      end
  | None => (st, [])
  end.

Definition on_player_death (c : string) (data : Death.data) (st : state)
  : state * list emission :=
  match JSMap.get c (playerSockets st) with
  | Some pd =>
      (st, [BroadcastEmit c (PlayerDied (playerId pd) (Death.killerId data))])
  | None => (st, [])
  end.

Definition on_chat_message (c : string) (data : Chat.data) (now : Z)
  (st : state) : state * list emission :=
  match JSMap.get c (playerSockets st) with
  | Some pd =>
      (st, [IoEmit (ChatMessage (username pd) (house pd)
                      (Chat.message data) now)])
  | None => (st, [])
  end.

Definition on_disconnect (c : string) (st : state) : state * list emission :=
  match JSMap.get c (playerSockets st) with
  | Some pd =>
      let ap := JSMap.delete (playerId pd) (activePlayers st) in
      let ps := JSMap.delete c (playerSockets st) in
      (with_registry st ap ps, [BroadcastEmit c (PlayerLeft (playerId pd))])
  | None => (st, [])
  end.

(** ** Background job: cleanup of old spells *)

(** [arr.splice(i, 1)]. *)
Definition splice1 {A : Type} (i : nat) (l : list A) : list A :=
  firstn i l ++ skipn (S i) l.

(** The [while (i < recentSpells.length)] loop of the interval callback. *)
Equations? cleanup_loop (now : Z) (i : nat) (spells : list spellData)
  : list spellData by wf (List.length spells - i) lt :=
  cleanup_loop now i spells with inspect (nth_error spells i) => {
    | exist _ None _ => spells
    | exist _ (Some sp) _ =>
        if (SPELL_TIMEOUT <? now - timestamp sp)%Z
        then cleanup_loop now i (splice1 i spells)
        else cleanup_loop now (S i) spells }.
Proof.
  - assert (i < List.length spells)
      by (apply nth_error_Some; congruence).
    unfold splice1. rewrite length_app, length_firstn, length_skipn. lia.
  - assert (i < List.length spells)
      by (apply nth_error_Some; congruence).
    lia.
Qed.

Definition cleanup_old_spells (now : Z) (st : state) : state :=
  {| connected := connected st; activePlayers := activePlayers st;
     playerSockets := playerSockets st;
     recentSpells := cleanup_loop now 0 (recentSpells st) |}.

(** ** REST position update ([POST /player/position])

    Only the part that touches the shared maps: the request is rejected
    when [playerId] or [position] is falsy, and otherwise the session the
    player-keyed map points at is overwritten field by field. *)

Definition post_player_position (body : PositionBody.data) (st : state)
  : state :=
  match PositionBody.position body with
  | Some pos =>
      if truthy_string (PositionBody.playerId body) then
        match JSMap.get (PositionBody.playerId body) (activePlayers st) with
        | Some socketId =>
            if truthy_string socketId then
              match JSMap.get socketId (playerSockets st) with
              | Some pd =>
                  with_registry st (activePlayers st)
                    (JSMap.set socketId
                       {| playerId := playerId pd;
                          username := username pd;
                          house := house pd;
                          position := pos;
                          health := PositionBody.health body;
                          maxHealth := PositionBody.maxHealth body;
                          zoneId := PositionBody.zoneId body |}
                       (playerSockets st))
              | None => st
              end
            else st
        | None => st
        end
      else st
  | None => st
  end.

(** ** The server as a transition system *)

Inductive event :=
| Connection (c : string)
| PlayerJoin (c : string) (data : Join.data)
| PlayerMove (c : string) (data : Move.data)
| SpellCast (c : string) (data : Spell.data) (now : Z)
| DamageDealt (c : string) (data : Damage.data)
| PlayerDeath (c : string) (data : Death.data)
| ChatSent (c : string) (data : Chat.data) (now : Z)
| Disconnect (c : string)
| SpellCleanup (now : Z)
| PositionUpdate (body : PositionBody.data).

Definition with_connected (st : state) (cs : list string) : state :=
  {| connected := cs; activePlayers := activePlayers st;
     playerSockets := playerSockets st; recentSpells := recentSpells st |}.

(** Socket.IO adds a socket to the namespace before the connection callback
    runs and takes it out before the ['disconnect'] handler runs. *)
Definition step (e : event) (st : state) : state * list emission :=
  match e with
  | Connection c => (with_connected st (connected st ++ [c]), [])
  | PlayerJoin c data => on_player_join c data st
  | PlayerMove c data => on_player_move c data st
  | SpellCast c data now => on_spell_cast c data now st
  | DamageDealt c data => on_damage_dealt c data st
  | PlayerDeath c data => on_player_death c data st
  | ChatSent c data now => on_chat_message c data now st
  | Disconnect c =>
      on_disconnect c
        (with_connected st (filter (fun c' => negb (c' =? c)) (connected st)))
  | SpellCleanup now => (cleanup_old_spells now st, [])
  | PositionUpdate body => (post_player_position body st, [])
  end.

(** Who receives an emission, given the sockets currently open.  Every
    socket sits in the room named by its own id and the server never calls
    [socket.join], so a room holds at most the socket of that name. *)
Definition recipients (conns : list string) (e : emission) : list string :=
  match e with
  | SocketEmit c _ => [c]
  | BroadcastEmit c _ => filter (fun c' => negb (c' =? c)) conns
  | IoEmit _ => conns
  | IoToEmit room _ => filter (fun c' => c' =? room) conns
  end.

Definition payload (e : emission) : message :=
  match e with
  | SocketEmit _ m | BroadcastEmit _ m | IoEmit m | IoToEmit _ m => m
  end.

Definition deliveries (conns : list string) (es : list emission)
  : list (string * message) :=
  flat_map (fun e => map (fun c => (c, payload e)) (recipients conns e)) es.

(** The messages one connection receives. *)
Definition inbox (c : string) (ds : list (string * message)) : list message :=
  map snd (filter (fun d => fst d =? c) ds).

(** One event: new state and the deliveries it causes. *)
Definition handle (e : event) (st : state) : state * list (string * message) :=
  let '(st', es) := step e st in (st', deliveries (connected st') es).

Fixpoint run (evs : list event) (st : state)
  : state * list (string * message) :=
  match evs with
  | [] => (st, [])
  | e :: evs' =>
      let '(st1, ds1) := handle e st in
      let '(st2, ds2) := run evs' st1 in
      (st2, ds1 ++ ds2)
  end.

Definition exec (evs : list event) (st : state) : state := fst (run evs st).

(** ** Vocabulary of the specification *)

(** The two views of the registry agree: every connection-keyed session is
    pointed at by its own [playerId], and every pointer leads to a session
    carrying that [playerId]. *)
Definition views_agree (ap : JSMap.t string) (ps : JSMap.t playerData)
  : Prop :=
  (forall c pd, JSMap.get c ps = Some pd ->
                JSMap.get (playerId pd) ap = Some c) /\
  (forall p c, JSMap.get p ap = Some c ->
               exists pd, JSMap.get c ps = Some pd /\ playerId pd = p).

Definition consistent (st : state) : Prop :=
  views_agree (activePlayers st) (playerSockets st).

(** A join that either brings a new player on a new connection or repeats
    the pairing the registry already holds. *)
Definition join_pairs_up (c pid : string) (st : state) : Prop :=
  (forall c', JSMap.get pid (activePlayers st) = Some c' -> c' = c) /\
  (forall pd, JSMap.get c (playerSockets st) = Some pd -> playerId pd = pid).

(** Every join of a trace pairs up in the state it is received in. *)
Fixpoint joins_pair_up (evs : list event) (st : state) : Prop :=
  match evs with
  | [] => True
  | e :: evs' =>
      match e with
      | PlayerJoin c data => join_pairs_up c (Join.playerId data) st
      | _ => True
      end /\ joins_pair_up evs' (fst (step e st))
  end.

(** [resolve(playerId)]. *)
Definition resolve (p : string) (st : state) : option string :=
  JSMap.get p (activePlayers st).


(** [listOthers(c)] as the specification words it: the public fields of
    the sessions registered under the connections other than [c]. *)
Definition spec_listOthers (c : string) (ps : JSMap.t playerData)
  : list Public.t :=
  map (fun kv => to_public (snd kv))
    (filter (fun kv => negb (fst kv =? c)) ps).

(** The connection named by the most recent of a sequence of join calls
    for player [p], if any. *)
Fixpoint last_registered (p : string) (joins : list (string * Join.data))
  : option string :=
  match joins with
  | [] => None
  | (c, data) :: rest =>
      match last_registered p rest with
      | Some c' => Some c'
      | None => if Join.playerId data =? p then Some c else None
      end
  end.

Definition join_events (joins : list (string * Join.data)) : list event :=
  map (fun j => PlayerJoin (fst j) (snd j)) joins.

(** Events a client sends other than the join. *)
Definition non_join_from (c : string) (e : event) : bool :=
  match e with
  | PlayerMove c' _ | SpellCast c' _ _ | DamageDealt c' _
  | PlayerDeath c' _ | ChatSent c' _ _ => c' =? c
  | _ => false
  end.

Definition is_join_from (c : string) (e : event) : bool :=
  match e with
  | PlayerJoin c' _ => c' =? c
  | _ => false
  end.

(** Appending a sequence of casts to the buffer, oldest first. *)
Definition push_all (es buf : list spellData) : list spellData :=
  fold_left (fun b sp => push_spell sp b) es buf.

(** An entry the sweep at time [now] must drop. *)
Definition expired (now : Z) (sp : spellData) : bool :=
  (SPELL_TIMEOUT <? now - timestamp sp)%Z.

(** ** Sample data used to exercise the statements *)

Definition harry_on (pid : string) : Join.data :=
  {| Join.playerId := pid; Join.username := "Harry";
     Join.house := "Gryffindor"; Join.position := None |}.


Definition hit (target : string) : Damage.data :=
  {| Damage.targetId := target; Damage.damage := 25; Damage.source := "spell" |}.

(** Harry on [c1] as [p1] and a second player on [c2] as [p2]. *)
Definition two_players : state :=
  exec [Connection "c1"; Connection "c2"; PlayerJoin "c1" (harry_on "p1");
        PlayerJoin "c2" (harry_on "p2")] initial.

(** Harry on [c1] as [p1], with a second socket [c2] open but not joined. *)
Definition harry_alone : state :=
  exec [Connection "c1"; Connection "c2"; PlayerJoin "c1" (harry_on "p1")]
    initial.

(** A cast recorded at time [t]. *)
Definition cast_at (t : Z) : spellData :=
  {| casterId := "p1"; casterName := "Harry"; spellName := "Lumos";
     spellPosition := Position.origin; direction := Position.origin;
     color := Color.white; damage := 10; speed := 5; timestamp := t |}.



(** A playerId is registered when an open connection holds a session under
    it: a join registered it and neither a disconnect nor a re-join of
    that connection has replaced the session since. *)
Definition session_registered (t : string) (st : state) : Prop :=
  exists c pd,
    JSMap.get c (playerSockets st) = Some pd /\ playerId pd = t /\
    In c (connected st).

(** The buffer entry a cast with payload [data], received at time [now]
    from a connection holding session [pd], stands for. *)
Definition cast_record (pd : playerData) (data : Spell.data) (now : Z)
  : spellData :=
  {| casterId := playerId pd;
     casterName := username pd;
     spellName := Spell.spellName data;
     spellPosition := Spell.position data;
     direction := Spell.direction data;
     color := match Spell.color data with
              | Some col => col
              | None => {| Color.r := 1; Color.g := 1; Color.b := 1;
                           Color.a := 1 |}
              end;
     damage := match Spell.damage data with
               | Some 0%Z | None => 10%Z
               | Some d => d
               end;
     speed := match Spell.speed data with
              | Some 0%Z | None => 5%Z
              | Some s => s
              end;
     timestamp := now |}.

(** The entries a sequence of cast events (connection, payload, time)
    appends when received in state [st], in arrival order: one for each
    cast whose sender holds a session. *)
Fixpoint appended_casts (st : state) (casts : list (string * Spell.data * Z))
  : list spellData :=
  match casts with
  | [] => []
  | (c, data, now) :: rest =>
      match JSMap.get c (playerSockets st) with
      | Some pd => cast_record pd data now :: appended_casts st rest
      | None => appended_casts st rest
      end
  end.

Definition cast_events (casts : list (string * Spell.data * Z)) : list event :=
  map (fun k => SpellCast (fst (fst k)) (snd (fst k)) (snd k)) casts.

(** Sixty casts of Lumos from [c1], one per millisecond. *)
Definition sixty_cast_events : list (string * Spell.data * Z) :=
  map (fun n => ("c1",
                 {| Spell.spellName := "Lumos";
                    Spell.position := Position.origin;
                    Spell.direction := Position.origin;
                    Spell.color := None; Spell.damage := None;
                    Spell.speed := None |},
                 Z.of_nat n))
      (seq 0 60).

(** The session stored under connection [c], if any, has the health values
    a join gives it. *)
Definition healthy_at (c : string) (st : state) : Prop :=
  forall pd, JSMap.get c (playerSockets st) = Some pd ->
             health pd = Some 100%Z /\ maxHealth pd = Some 100%Z.

(** The REST position report [body], received in state [st], writes into
    the session stored under connection [c]. *)
Definition report_writes (c : string) (body : PositionBody.data) (st : state)
  : bool :=
  match PositionBody.position body,
        JSMap.get (PositionBody.playerId body) (activePlayers st) with
  | Some _, Some sid =>
      truthy_string (PositionBody.playerId body) && truthy_string sid
      && JSMap.has sid (playerSockets st) && (sid =? c)
  | _, _ => false
  end.

(** No position report of the trace writes into the session of [c]. *)
Fixpoint health_unreported (c : string) (evs : list event) (st : state)
  : Prop :=
  match evs with
  | [] => True
  | e :: evs' =>
      match e with
      | PositionUpdate body => report_writes c body st = false
      | _ => True
      end /\ health_unreported c evs' (fst (step e st))
  end.

(** ** Registry read-outs over HTTP *)

(** Entry of the [/api/debug/active-players] response. *)
Module DebugPlayer.
Record t := {
  playerId : string;
  username : string;
  house : string;
  socketId : option string
}.
End DebugPlayer.

(** [Array.from(activePlayers.entries()).find(([pid]) => pid === id)?.[1]] *)
Definition entry_socket (id : string) (ap : JSMap.t string) : option string :=
  match find (fun e => fst e =? id) ap with
  | Some e => Some (snd e)
  | None => None
  end.

(** [GET /api/debug/active-players]: [activeCount] and [players]. *)
Definition debug_active_players (st : state) : nat * list DebugPlayer.t :=
  let players :=
    map (fun p =>
           {| DebugPlayer.playerId := playerId p;
              DebugPlayer.username := username p;
              DebugPlayer.house := house p;
              DebugPlayer.socketId :=
                entry_socket (playerId p) (activePlayers st) |})
        (JSMap.values (playerSockets st)) in
  (List.length players, players).

(** Entry of the [GET /player/active] response of [routes/game.js]. *)
Module ActivePlayer.
Record t := {
  playerId : string;
  username : string;
  house : string;
  position : Position.t;
  zoneId : string;
  health : Z;
  maxHealth : Z
}.
End ActivePlayer.

(** [v || d] for an optional string. *)
Definition string_or (v : option string) (d : string) : string :=
  match v with
  | Some s => if truthy_string s then s else d
  | None => d
  end.

(** [GET /player/active].  A stored position is always an object, so
    [p.position || { x: 0, y: 0 }] is the stored position. *)
Definition get_player_active (st : state) : list ActivePlayer.t :=
  map (fun p =>
         {| ActivePlayer.playerId := playerId p;
            ActivePlayer.username := username p;
            ActivePlayer.house := house p;
            ActivePlayer.position := position p;
            ActivePlayer.zoneId := string_or (zoneId p) "unknown";
            ActivePlayer.health := number_or (health p) 100;
            ActivePlayer.maxHealth := number_or (maxHealth p) 100 |})
      (JSMap.values (playerSockets st)).

(** Events that write to the registry maps, and events that write to the
    spell buffer. *)
Definition writes_registry (e : event) : bool :=
  match e with
  | PlayerJoin _ _ | PlayerMove _ _ | Disconnect _ | PositionUpdate _ => true
  | _ => false
  end.

Definition writes_spells (e : event) : bool :=
  match e with
  | SpellCast _ _ _ | SpellCleanup _ => true
  | _ => false
  end.

Definition changes_connections (e : event) : bool :=
  match e with
  | Connection _ | Disconnect _ => true
  | _ => false
  end.

(** ** JavaScript numbers that hold counts

    A JavaScript number is an IEEE 754 double.  The documents modelled
    below hold counts (experience, galleons, item quantities, health
    points); an integer-valued double is written as its value in [Z], and
    every operation returns the exact result rounded to the nearest
    double (53 significant bits, ties to the even significand), as long
    as it stays below the overflow threshold.  Comparisons and [%] are
    exact on doubles.  Numbers with a fractional part are outside this
    model. *)

Definition TWO_53 : Z := 9007199254740992.
Definition TWO_54 : Z := 18014398509481984.

(** The integer nearest to [n / d], ties to the even one ([0 < d]). *)
Definition round_half_even (n d : Z) : Z :=
  let m := (n / d)%Z in
  let s := (n mod d)%Z in
  if (2 * s <? d)%Z then m
  else if (d <? 2 * s)%Z then (m + 1)%Z
  else if Z.even m then m else (m + 1)%Z.

(** The double nearest to the integer [z]. *)
Definition to_double (z : Z) : Z :=
  let m := Z.abs z in
  if (m <? TWO_53)%Z then z
  else
    let e := (Z.log2 m - 52)%Z in
    (Z.sgn z * (round_half_even m (2 ^ e) * 2 ^ e))%Z.

(** [a + b] and [a - b]. *)
Definition js_add (a b : Z) : Z := to_double (a + b).
Definition js_sub (a b : Z) : Z := to_double (a - b).

(** The double nearest to [m / b] for [0 <= m] and [0 < b], as a
    significand and a binary exponent: the quotient is
    [significand * 2 ^ exponent].  A quotient below 1 is only told apart
    as 0, as rounding to 1, or as lying strictly between 0 and 1 (given as
    one half). *)
Definition quotient_double (m b : Z) : Z * Z :=
  let q := (m / b)%Z in
  if (q =? 0)%Z then
    if (m =? 0)%Z then (0, 0)%Z
    else if ((b - m) * TWO_54 <=? b)%Z then (1, 0)%Z else (1, -1)%Z
  else
    let e := (Z.log2 q - 52)%Z in
    if (0 <=? e)%Z then (round_half_even m (b * 2 ^ e), e)
    else (round_half_even (m * 2 ^ (- e)) b, e).

(** [Math.floor(a / b)] for [0 < b]. *)
Definition js_floor_div (a b : Z) : Z :=
  let '(significand, e) := quotient_double (Z.abs a) b in
  let signed := (Z.sgn a * significand)%Z in
  if (0 <=? e)%Z then (signed * 2 ^ e)%Z else (signed / 2 ^ (- e))%Z.

(** ** Progression helpers of [routes/game.js] *)

Definition XP_PER_SEGMENT : Z := 20.
Definition SEGMENTS_PER_LEVEL : Z := 5.
Definition GALLEONS_PER_LEVEL : Z := 10.
Definition HORCRUX_EVERY_N_LEVELS : Z := 10.
Definition HEALTH_INCREASE_PER_HORCRUX : Z := 50.
Definition HEALTH_INCREASE_PER_LEVEL : Z := 5.

Definition SPELL_UNLOCKS : list (string * Z) :=
  [("Lumos", 0); ("Stupefy", 0); ("Expelliarmus", 3); ("Protego", 5);
   ("Expecto Patronum", 10); ("Avada Kedavra", 15); ("Imperio", 20)]%Z.

(** [{ level, progress }] *)
Definition calculateLevelAndProgress (xp : Z) : Z * Z :=
  let totalSegments := js_floor_div xp XP_PER_SEGMENT in
  (js_floor_div totalSegments SEGMENTS_PER_LEVEL,
   Z.rem totalSegments SEGMENTS_PER_LEVEL).

(** Inventory entry of the player document. *)
Module Item.
Record t := { itemId : string; quantity : Z }.
End Item.

(** The fields of the player document the modelled functions touch. *)
Module Player.
Record t := {
  galleons : Z;
  horcruxes : Z;
  currentHealth : Z;
  maxHealth : Z;
  unlockedSpells : list string;
  inventory : option (list Item.t);
  damageTaken : Z
}.
End Player.

Module Rewards.
Record t := {
  galleons : Z;
  horcrux : bool;
  spells : list string;
  healthIncrease : Z
}.
End Rewards.

(** [arr.includes(s)] *)
Definition includes (s : string) (l : list string) : bool :=
  existsb (fun s' => s' =? s) l.

(** The [for ... of Object.entries(SPELL_UNLOCKS)] loop: the spells the
    player holds and the spells reported, after the entries [table]. *)
Definition unlock_loop (newLevel : Z) (table : list (string * Z))
  (unlocked rewarded : list string) : list string * list string :=
  fold_left
    (fun acc entry =>
       let '(held, won) := acc in
       if ((snd entry =? newLevel)%Z && negb (includes (fst entry) held))%bool
       then (held ++ [fst entry], won ++ [fst entry])
       else (held, won))
    table (unlocked, rewarded).

Definition handleLevelUp (player : Player.t) (oldLevel newLevel : Z)
  : Player.t * Rewards.t :=
  let galleonsAwarded := GALLEONS_PER_LEVEL in
  let galleonsAwarded :=
    if (Z.rem newLevel 5 =? 0)%Z then js_add galleonsAwarded 10
    else galleonsAwarded in
  let galleonsAwarded :=
    if (Z.rem newLevel 10 =? 0)%Z then js_add galleonsAwarded 25
    else galleonsAwarded in
  let galleons1 := js_add (Player.galleons player) galleonsAwarded in
  let horcrux := (Z.rem newLevel HORCRUX_EVERY_N_LEVELS =? 0)%Z in
  let horcruxes1 :=
    if horcrux then js_add (Player.horcruxes player) 1
    else Player.horcruxes player in
  let maxHealth1 :=
    if horcrux
    then js_add (Player.maxHealth player) HEALTH_INCREASE_PER_HORCRUX
    else Player.maxHealth player in
  let currentHealth1 :=
    if horcrux then maxHealth1 else Player.currentHealth player in
  let healthIncrease1 :=
    if horcrux then js_add 0 HEALTH_INCREASE_PER_HORCRUX else 0%Z in
  let maxHealth2 := js_add maxHealth1 HEALTH_INCREASE_PER_LEVEL in
  let healthIncrease2 := js_add healthIncrease1 HEALTH_INCREASE_PER_LEVEL in
  let '(held, won) :=
    unlock_loop newLevel SPELL_UNLOCKS (Player.unlockedSpells player) [] in
  ({| Player.galleons := galleons1;
      Player.horcruxes := horcruxes1;
      Player.currentHealth := currentHealth1;
      Player.maxHealth := maxHealth2;
      Player.unlockedSpells := held;
      Player.inventory := Player.inventory player;
      Player.damageTaken := Player.damageTaken player |},
   {| Rewards.galleons := galleonsAwarded;
      Rewards.horcrux := horcrux;
      Rewards.spells := won;
      Rewards.healthIncrease := healthIncrease2 |}).

(** ** Inventory and combat methods of the player model

    The methods mutate the document and then call [save]; only the
    mutation is modelled. *)

Definition items (inv : option (list Item.t)) : list Item.t :=
  match inv with Some l => l | None => [] end.

Definition item_ids (l : list Item.t) : list string := map Item.itemId l.

(** [existingItem.quantity += quantity] on the first entry named [id]. *)
Fixpoint add_to_first (id : string) (q : Z) (l : list Item.t) : list Item.t :=
  match l with
  | [] => []
  | it :: rest =>
      if Item.itemId it =? id
      then {| Item.itemId := Item.itemId it;
              Item.quantity := js_add (Item.quantity it) q |} :: rest
      else it :: add_to_first id q rest
  end.

Definition addItem (id : string) (q : Z) (inv : option (list Item.t))
  : option (list Item.t) :=
  let l := items inv in
  match find (fun it => Item.itemId it =? id) l with
  | Some _ => Some (add_to_first id q l)
  | None => Some (l ++ [{| Item.itemId := id; Item.quantity := q |}])
  end.

(** [findIndex] *)
Fixpoint findIndex {A : Type} (f : A -> bool) (l : list A) : option nat :=
  match l with
  | [] => None
  | a :: rest =>
      if f a then Some 0%nat
      else match findIndex f rest with
           | Some i => Some (S i)
           | None => None
           end
  end.

(** [arr[i] = x] for an index in range. *)
Fixpoint assign {A : Type} (i : nat) (x : A) (l : list A) : list A :=
  match l, i with
  | [], _ => []
  | _ :: rest, O => x :: rest
  | a :: rest, S j => a :: assign j x rest
  end.

Inductive thrown := ItemNotFound | InsufficientQuantity.

Definition error_message (e : thrown) : string :=
  match e with
  | ItemNotFound => "Item not found"
  | InsufficientQuantity => "Insufficient quantity"
  end.

Definition removeItem (id : string) (q : Z) (inv : option (list Item.t))
  : thrown + option (list Item.t) :=
  match inv with
  | None => inl ItemNotFound
  | Some [] => inl ItemNotFound
  | Some l =>
      match findIndex (fun it => Item.itemId it =? id) l with
      | None => inl ItemNotFound
      | Some itemIndex =>
          match nth_error l itemIndex with
          | None => inl ItemNotFound
          | Some item =>
              if (Item.quantity item <? q)%Z then inl InsufficientQuantity
              else
                let remaining := js_sub (Item.quantity item) q in
                if (remaining <=? 0)%Z then inr (Some (splice1 itemIndex l))
                else inr (Some (assign itemIndex
                                  {| Item.itemId := Item.itemId item;
                                     Item.quantity := remaining |} l))
          end
      end
  end.

Definition hasItem (id : string) (inv : option (list Item.t)) : bool :=
  match inv with
  | None => false
  | Some l =>
      existsb (fun it => (Item.itemId it =? id) && (0 <? Item.quantity it)%Z)%bool l
  end.

Definition getItemQuantity (id : string) (inv : option (list Item.t)) : Z :=
  match inv with
  | None => 0%Z
  | Some l =>
      match find (fun it => Item.itemId it =? id) l with
      | Some it => Item.quantity it
      | None => 0%Z
      end
  end.

Definition with_health (p : Player.t) (h taken : Z) : Player.t :=
  {| Player.galleons := Player.galleons p;
     Player.horcruxes := Player.horcruxes p;
     Player.currentHealth := h;
     Player.maxHealth := Player.maxHealth p;
     Player.unlockedSpells := Player.unlockedSpells p;
     Player.inventory := Player.inventory p;
     Player.damageTaken := taken |}.

(** [takeDamage]: the document after the call and whether the player
    died. *)
Definition takeDamage (dmg : Z) (p : Player.t) : Player.t * bool :=
  let h := js_sub (Player.currentHealth p) dmg in
  let taken := js_add (Player.damageTaken p) dmg in
  if (h <=? 0)%Z then (with_health p 0 taken, true)
  else (with_health p h taken, false).

(** [heal]: the document after the call and the health returned. *)
Definition heal (amount : Z) (p : Player.t) : Player.t * Z :=
  let h := Z.min (js_add (Player.currentHealth p) amount) (Player.maxHealth p) in
  (with_health p h (Player.damageTaken p), h).

(** [unlockSpell] and [hasSpell]. *)
Definition unlockSpell (s : string) (spells : list string) : list string :=
  if negb (includes s spells) then spells ++ [s] else spells.

Definition hasSpell (s : string) (spells : list string) : bool :=
  includes s spells.

(** Two connections joined under one playerId: [c1] first, then [c2]. *)
Definition same_player_twice : state :=
  exec [Connection "c1"; Connection "c2"; Connection "c3";
        PlayerJoin "c1" (harry_on "p1"); PlayerJoin "c2" (harry_on "p1");
        PlayerJoin "c3" (harry_on "p3")] initial.

(** The buffer lists its entries oldest first. *)
Definition time_ordered (buf : list spellData) : Prop :=
  StronglySorted Z.le (map timestamp buf).

(** A position report for [p] carrying health [h]. *)
Definition report (p : string) (h : option Z) : PositionBody.data :=
  {| PositionBody.playerId := p;
     PositionBody.position := Some {| Position.x := 3; Position.y := 4 |};
     PositionBody.zoneId := Some "forest";
     PositionBody.health := h;
     PositionBody.maxHealth := Some 120%Z |}.

(** A player document fresh from the schema defaults. *)
Definition fresh_player : Player.t :=
  {| Player.galleons := 100; Player.horcruxes := 1;
     Player.currentHealth := 100; Player.maxHealth := 100;
     Player.unlockedSpells := ["Lumos"; "Stupefy"];
     Player.inventory := Some []; Player.damageTaken := 0 |}.

(** An inventory with two wands' worth of potions. *)
Definition sample_inventory : option (list Item.t) :=
  Some [{| Item.itemId := "potion"; Item.quantity := 2 |};
        {| Item.itemId := "wand"; Item.quantity := 1 |}].

(** * Properties *)

(** ** Lookup laws of the map operations *)

Module JSMapFacts.
Import JSMap.

Section Facts.
Context {V : Type}.
Implicit Types (m : JSMap.t V) (k : string) (v : V).

Lemma get_set_eq k v m : get k (set k v m) = Some v.
Proof.
  induction m as [|[k' v'] m IH]; simpl.
  - now rewrite String.eqb_refl.
  - destruct (k =? k') eqn:E; simpl.
    + now rewrite String.eqb_refl.
    + now rewrite E.
Qed.

Lemma get_set_ne k k' v m : k <> k' -> get k' (set k v m) = get k' m.
Proof.
  intros Hne. induction m as [|[k0 v0] m IH]; simpl.
  - destruct (String.eqb_spec k' k); congruence.
  - destruct (String.eqb_spec k k0) as [->|Hk]; simpl.
    + destruct (String.eqb_spec k' k0); congruence.
    + destruct (String.eqb_spec k' k0); auto.
Qed.

Lemma get_delete_eq k m : get k (delete k m) = None.
Proof.
  induction m as [|[k' v'] m IH]; simpl; auto.
  destruct (k =? k') eqn:E; simpl; auto. now rewrite E.
Qed.

Lemma get_delete_ne k k' m : k <> k' -> get k' (delete k m) = get k' m.
Proof.
  intros Hne. induction m as [|[k0 v0] m IH]; simpl; auto.
  destruct (String.eqb_spec k k0) as [->|Hk]; simpl.
  - destruct (String.eqb_spec k' k0); congruence.
  - destruct (String.eqb_spec k' k0); auto.
Qed.

Lemma set_set k v w m : set k v (set k w m) = set k v m.
Proof.
  induction m as [|[k' v'] m IH]; simpl.
  - now rewrite String.eqb_refl.
  - destruct (k =? k') eqn:E; simpl.
    + now rewrite String.eqb_refl.
    + rewrite E. now f_equal.
Qed.

Lemma keys_set_in k v m : In k (keys m) -> keys (set k v m) = keys m.
Proof.
  induction m as [|[k' v'] m IH]; simpl; [tauto|].
  destruct (String.eqb_spec k k') as [->|Hk]; simpl; auto.
  intros [H|H]; [congruence|]. f_equal. auto.
Qed.

Lemma keys_set_notin k v m : ~ In k (keys m) -> keys (set k v m) = keys m ++ [k].
Proof.
  induction m as [|[k' v'] m IH]; simpl; auto.
  destruct (String.eqb_spec k k') as [->|Hk]; simpl.
  - tauto.
  - intros H. f_equal. apply IH. tauto.
Qed.

Lemma in_keys_get k m : In k (keys m) <-> get k m <> None.
Proof.
  induction m as [|[k' v'] m IH]; simpl; [tauto|].
  destruct (String.eqb_spec k k') as [->|Hk].
  - split; [discriminate|auto].
  - rewrite <- IH. split; [intros [H|H]; congruence || auto | auto].
Qed.

Lemma wf_set k v m : wf m -> wf (set k v m).
Proof.
  unfold wf. intros H.
  destruct (in_dec string_dec k (keys m)) as [Hin|Hnin].
  - now rewrite keys_set_in.
  - rewrite keys_set_notin by assumption.
    apply NoDup_app; auto.
    + constructor; [simpl; tauto | constructor].
    + intros a Ha [<-|[]]. contradiction.
Qed.

Lemma keys_delete_incl k m a : In a (keys (delete k m)) -> In a (keys m).
Proof.
  induction m as [|[k' v'] m IH]; simpl; auto.
  destruct (k =? k'); simpl; intuition.
Qed.

Lemma wf_delete k m : wf m -> wf (delete k m).
Proof.
  unfold wf. induction m as [|[k' v'] m IH]; simpl; auto.
  intros H. inversion H as [|? ? Hn Hd]; subst.
  destruct (k =? k'); simpl; auto.
  constructor; auto. intros Hin. apply Hn. eapply keys_delete_incl; eauto.
Qed.

Lemma get_in k v m : get k m = Some v -> In (k, v) m.
Proof.
  induction m as [|[k' v'] m IH]; simpl; [discriminate|].
  destruct (String.eqb_spec k k') as [->|Hk].
  - intros [= ->]. now left.
  - auto.
Qed.

Lemma in_get k v m : wf m -> In (k, v) m -> get k m = Some v.
Proof.
  unfold wf. induction m as [|[k' v'] m IH]; simpl; [tauto|].
  intros H. inversion H as [|? ? Hn Hd]; subst.
  intros [[= -> ->]|Hin].
  - now rewrite String.eqb_refl.
  - destruct (String.eqb_spec k k') as [->|Hk]; auto.
    exfalso. apply Hn. change (In (fst (k', v)) (map fst m)).
    now apply in_map.
Qed.

Lemma delete_absent k m : get k m = None -> delete k m = m.
Proof.
  induction m as [|[k' v'] m IH]; simpl; auto.
  destruct (k =? k'); [discriminate|]. intros H. f_equal. auto.
Qed.

Lemma keys_set_same k v m : keys (set k v m) = keys m <-> In k (keys m).
Proof.
  split; [|apply keys_set_in].
  intros Heq. destruct (in_dec string_dec k (keys m)) as [Hin|Hout]; auto.
  rewrite keys_set_notin in Heq by assumption.
  apply (f_equal (@List.length string)) in Heq.
  rewrite length_app in Heq. simpl in Heq. lia.
Qed.

Lemma keys_delete_same k m : keys (delete k m) = keys m <-> ~ In k (keys m).
Proof.
  split.
  - intros Heq Hin. rewrite <- Heq in Hin.
    apply in_keys_get in Hin. apply Hin, get_delete_eq.
  - intros Hout. f_equal. apply delete_absent.
    destruct (get k m) eqn:E; auto.
    exfalso. apply Hout, in_keys_get. congruence.
Qed.

End Facts.

End JSMapFacts.

(** ** The two views of the registry *)

Section RegistryViews.
Import JSMapFacts.

(** Rewriting one session without touching its [playerId] keeps the views
    in agreement. *)
Lemma views_agree_update ap ps c pd pd' :
  views_agree ap ps ->
  JSMap.get c ps = Some pd ->
  playerId pd' = playerId pd ->
  views_agree ap (JSMap.set c pd' ps).
Proof.
  intros [Hps Hap] Hc Hid. split.
  - intros c0 pd0. destruct (string_dec c c0) as [<-|Hne].
    + rewrite get_set_eq. intros [= <-]. rewrite Hid. now apply Hps.
    + rewrite get_set_ne by assumption. apply Hps.
  - intros p c0 Hp. destruct (Hap p c0 Hp) as (pd0 & Hget & Hpid).
    destruct (string_dec c c0) as [<-|Hne].
    + exists pd'. rewrite get_set_eq. split; [reflexivity|]. congruence.
    + exists pd0. now rewrite get_set_ne.
Qed.

Lemma views_agree_join ap ps c pd :
  views_agree ap ps ->
  (forall c', JSMap.get (playerId pd) ap = Some c' -> c' = c) ->
  (forall pd0, JSMap.get c ps = Some pd0 -> playerId pd0 = playerId pd) ->
  views_agree (JSMap.set (playerId pd) c ap) (JSMap.set c pd ps).
Proof.
  intros [Hps Hap] Hfresh Hsame. split.
  - intros c0 pd0. destruct (string_dec c c0) as [<-|Hne].
    + rewrite get_set_eq. intros [= <-]. apply get_set_eq.
    + rewrite get_set_ne by assumption. intros Hget.
      destruct (string_dec (playerId pd) (playerId pd0)) as [Heq|Hp].
      * exfalso. apply Hne. symmetry. apply Hfresh. rewrite Heq. now apply Hps.
      * rewrite get_set_ne by assumption. now apply Hps.
  - intros p c0. destruct (string_dec (playerId pd) p) as [<-|Hp].
    + rewrite get_set_eq. intros [= <-]. exists pd.
      split; [apply get_set_eq | reflexivity].
    + rewrite get_set_ne by assumption. intros Hget.
      destruct (Hap p c0 Hget) as (pd0 & Hget0 & Hpid).
      destruct (string_dec c c0) as [<-|Hne].
      * exfalso. apply Hp. rewrite <- Hpid. symmetry. now apply Hsame.
      * exists pd0. now rewrite get_set_ne.
Qed.

Lemma views_agree_leave ap ps c pd :
  views_agree ap ps ->
  JSMap.get c ps = Some pd ->
  views_agree (JSMap.delete (playerId pd) ap) (JSMap.delete c ps).
Proof.
  intros [Hps Hap] Hc. split.
  - intros c0 pd0. destruct (string_dec c c0) as [<-|Hne].
    + now rewrite get_delete_eq.
    + rewrite get_delete_ne by assumption. intros Hget.
      destruct (string_dec (playerId pd) (playerId pd0)) as [Heq|Hp].
      * exfalso. apply Hne.
        pose proof (Hps _ _ Hc) as H1. pose proof (Hps _ _ Hget) as H2.
        congruence.
      * rewrite get_delete_ne by assumption. now apply Hps.
  - intros p c0. destruct (string_dec (playerId pd) p) as [<-|Hp].
    + now rewrite get_delete_eq.
    + rewrite get_delete_ne by assumption. intros Hget.
      destruct (Hap p c0 Hget) as (pd0 & Hget0 & Hpid).
      destruct (string_dec c c0) as [<-|Hne].
      * exfalso. apply Hp. congruence.
      * exists pd0. now rewrite get_delete_ne.
Qed.

Lemma step_consistent e st :
  consistent st ->
  match e with
  | PlayerJoin c data => join_pairs_up c (Join.playerId data) st
  | _ => True
  end ->
  consistent (fst (step e st)).
Proof.
  unfold consistent. intros Hst Hjoin.
  destruct e as [c|c data|c data|c data now|c data|c data|c data now|c|now|body];
    simpl.
  - exact Hst.
  - destruct Hjoin as [Hfresh Hsame].
    apply (views_agree_join _ _ c
             {| playerId := Join.playerId data;
                username := Join.username data;
                house := Join.house data;
                position := object_or (Join.position data) Position.origin;
                health := Some 100%Z; maxHealth := Some 100%Z;
                zoneId := None |}); assumption.
  - unfold on_player_move.
    destruct (JSMap.get c (playerSockets st)) as [pd|] eqn:Hc; simpl; auto.
    eapply views_agree_update; eauto.
  - unfold on_spell_cast.
    destruct (JSMap.get c (playerSockets st)); simpl; auto.
  - unfold on_damage_dealt.
    destruct (JSMap.get c (playerSockets st)); simpl; auto.
    destruct (JSMap.get _ (activePlayers st)) as [t|]; simpl; auto.
    destruct (truthy_string t); simpl; auto.
  - unfold on_player_death.
    destruct (JSMap.get c (playerSockets st)); simpl; auto.
  - unfold on_chat_message.
    destruct (JSMap.get c (playerSockets st)); simpl; auto.
  - unfold on_disconnect. simpl.
    destruct (JSMap.get c (playerSockets st)) as [pd|] eqn:Hc; simpl; auto.
    now apply views_agree_leave.
  - exact Hst.
  - unfold post_player_position.
    destruct (PositionBody.position body); auto.
    destruct (truthy_string (PositionBody.playerId body)); auto.
    destruct (JSMap.get _ (activePlayers st)) as [sid|]; auto.
    destruct (truthy_string sid); auto.
    destruct (JSMap.get sid (playerSockets st)) as [pd|] eqn:Hsid; auto.
    simpl. eapply views_agree_update; eauto.
Qed.

(** An event adds or removes a key of one map exactly when it does so in
    the other. *)
Lemma step_moves_views_together e st :
  consistent st ->
  match e with
  | PlayerJoin c data => join_pairs_up c (Join.playerId data) st
  | _ => True
  end ->
  JSMap.keys (activePlayers (fst (step e st))) = JSMap.keys (activePlayers st)
  <-> JSMap.keys (playerSockets (fst (step e st)))
      = JSMap.keys (playerSockets st).
Proof.
  intros [Hps Hap] Hjoin.
  destruct e as [c|c data|c data|c data now|c data|c data|c data now|c|now|body];
    simpl.
  - tauto.
  - destruct Hjoin as [Hfresh Hsame]. rewrite !keys_set_same, !in_keys_get.
    split.
    + intros Hp.
      destruct (JSMap.get (Join.playerId data) (activePlayers st)) as [c'|] eqn:E;
        [|contradiction].
      rewrite (Hfresh c' eq_refl) in E.
      destruct (Hap _ _ E) as (pd & Hget & _). congruence.
    + intros Hc.
      destruct (JSMap.get c (playerSockets st)) as [pd|] eqn:E;
        [|contradiction].
      rewrite <- (Hsame pd eq_refl), (Hps _ _ E). discriminate.
  - unfold on_player_move.
    destruct (JSMap.get c (playerSockets st)) as [pd|] eqn:Hc; simpl; [|tauto].
    split; [intros _|reflexivity].
    apply keys_set_in, in_keys_get. congruence.
  - unfold on_spell_cast.
    destruct (JSMap.get c (playerSockets st)); simpl; tauto.
  - unfold on_damage_dealt.
    destruct (JSMap.get c (playerSockets st)); simpl; [|tauto].
    destruct (JSMap.get _ (activePlayers st)) as [t|]; simpl; [|tauto].
    destruct (truthy_string t); simpl; tauto.
  - unfold on_player_death.
    destruct (JSMap.get c (playerSockets st)); simpl; tauto.
  - unfold on_chat_message.
    destruct (JSMap.get c (playerSockets st)); simpl; tauto.
  - unfold on_disconnect. simpl.
    destruct (JSMap.get c (playerSockets st)) as [pd|] eqn:Hc; simpl; [|tauto].
    rewrite !keys_delete_same, !in_keys_get, Hc, (Hps _ _ Hc).
    split; intros H; exfalso; apply H; discriminate.
  - tauto.
  - unfold post_player_position.
    destruct (PositionBody.position body); [|tauto].
    destruct (truthy_string (PositionBody.playerId body)); [|tauto].
    destruct (JSMap.get _ (activePlayers st)) as [sid|]; [|tauto].
    destruct (truthy_string sid); [|tauto].
    destruct (JSMap.get sid (playerSockets st)) as [pd|] eqn:Hsid; [|tauto].
    simpl. split; [intros _|reflexivity].
    apply keys_set_in, in_keys_get. congruence.
Qed.

Lemma exec_cons e evs st : exec (e :: evs) st = exec evs (fst (step e st)).
Proof.
  unfold exec, handle. simpl. unfold handle.
  destruct (step e st) as [st1 es]. simpl.
  now destruct (run evs st1).
Qed.

Lemma exec_consistent (evs : list event) (st : state) :
  consistent st -> joins_pair_up evs st -> consistent (exec evs st).
Proof.
  revert st. induction evs as [|e evs IH]; intros st Hst Hevs.
  - exact Hst.
  - rewrite exec_cons. destruct Hevs as [He Hrest].
    apply IH; [|exact Hrest].
    apply step_consistent; [exact Hst|].
    destruct e; auto.
Qed.

(** C1, as amended: along any sequence of events in which every join pairs
    up (its playerId is not held by another connection and its connection
    is not held under another playerId), the two maps agree after every
    event: each connection-keyed session is resolved to by its own playerId
    and each player-keyed pointer leads to a session carrying that
    playerId; and the next such event adds or removes a key of one map
    exactly when it does so in the other. *)
Theorem registry_views_agree (evs : list event) (st : state) :
  consistent st ->
  joins_pair_up evs st ->
  consistent (exec evs st) /\
  forall e,
    joins_pair_up [e] (exec evs st) ->
    let st1 := exec evs st in
    let st2 := fst (step e st1) in
    JSMap.keys (activePlayers st2) = JSMap.keys (activePlayers st1)
    <-> JSMap.keys (playerSockets st2) = JSMap.keys (playerSockets st1).
Proof.
  intros Hst Hevs.
  pose proof (exec_consistent evs st Hst Hevs) as Hcons.
  split; [exact Hcons|].
  intros e [He _] st1 st2. apply step_moves_views_together; [exact Hcons|].
  destruct e; auto.
Qed.

Lemma consistent_initial : consistent initial.
Proof. split; simpl; intros; discriminate. Qed.

Lemma registry_views_agree_witness :
  consistent
    (exec [Connection "c1"; Connection "c2"; PlayerJoin "c1" (harry_on "p1");
           PlayerJoin "c2" (harry_on "p2"); PlayerJoin "c1" (harry_on "p1");
           Disconnect "c1"] initial).
Proof.
  apply (registry_views_agree
           [Connection "c1"; Connection "c2"; PlayerJoin "c1" (harry_on "p1");
            PlayerJoin "c2" (harry_on "p2"); PlayerJoin "c1" (harry_on "p1");
            Disconnect "c1"] initial).
  - exact consistent_initial.
  - simpl. unfold join_pairs_up. simpl.
    repeat split; auto; intros; try discriminate.
    all: match goal with
         | H : _ = Some _ |- _ => vm_compute in H; injection H as <-; reflexivity
         end.
Defined.

(** C1 as stated fails: after two joins under one playerId from two
    connections the first session is still stored, and its playerId
    resolves to the second connection. *)
Lemma registry_views_disagree :
  ~ consistent
      (exec [Connection "c1"; Connection "c2"; PlayerJoin "c1" (harry_on "p1");
             PlayerJoin "c2" (harry_on "p1")] initial).
Proof.
  intros [Hps _].
  specialize (Hps "c1" _ eq_refl). vm_compute in Hps. discriminate.
Qed.

End RegistryViews.

(** ** Fan-out helpers *)

Lemma filter_room_present (room : string) (conns : list string) :
  NoDup conns -> In room conns ->
  filter (fun c' => c' =? room) conns = [room].
Proof.
  induction conns as [|c0 conns IH]; simpl; [tauto|].
  intros Hnd Hin. inversion Hnd as [|? ? Hn Hd]; subst.
  destruct (String.eqb_spec c0 room) as [->|Hne].
  - f_equal. clear IH Hin Hnd Hd.
    induction conns as [|c1 conns IH]; simpl; auto.
    destruct (String.eqb_spec c1 room) as [->|_].
    + exfalso. apply Hn. now left.
    + apply IH. intros H. apply Hn. now right.
  - destruct Hin as [Heq|Hin]; [congruence|]. auto.
Qed.

Lemma filter_room_absent (room : string) (conns : list string) :
  ~ In room conns -> filter (fun c' => c' =? room) conns = [].
Proof.
  induction conns as [|c0 conns IH]; simpl; auto.
  intros Hn. destruct (String.eqb_spec c0 room) as [->|_].
  - exfalso. apply Hn. now left.
  - apply IH. intros H. apply Hn. now right.
Qed.

Lemma truthy_string_true (s : string) : s <> "" -> truthy_string s = true.
Proof.
  unfold truthy_string. intros H.
  destruct (String.eqb_spec s ""); [contradiction|reflexivity].
Qed.

(** ** Damage events *)



(** C3, as amended: a damage-dealt event from a joined sender is delivered
    exactly once, to the connection the player-keyed map resolves the
    target playerId to and to nobody else, when that connection is open;
    when the target resolves to no open connection nothing is delivered;
    in both cases the handler completes and leaves the state as it was. *)
Theorem damage_dealt_unicast (c : string) (data : Damage.data) (st : state)
  (pd : playerData) :
  NoDup (connected st) ->
  JSMap.get c (playerSockets st) = Some pd ->
  (forall ct, resolve (Damage.targetId data) st = Some ct ->
              In ct (connected st) -> ct <> "" ->
      snd (handle (DamageDealt c data) st)
      = [(ct, DamageReceived (playerId pd) (Damage.damage data)
                (Damage.source data))]) /\
  ((forall ct, resolve (Damage.targetId data) st = Some ct ->
               ~ In ct (connected st)) ->
      snd (handle (DamageDealt c data) st) = []) /\
  fst (handle (DamageDealt c data) st) = st.
Proof.
  intros Hnd Hc. unfold handle, resolve. simpl. unfold on_damage_dealt.
  rewrite Hc. repeat split.
  - intros ct Ht Hin Hne. rewrite Ht, (truthy_string_true _ Hne). simpl.
    rewrite (filter_room_present _ _ Hnd Hin). reflexivity.
  - intros Hdead.
    destruct (JSMap.get _ (activePlayers st)) as [ct|]; [|reflexivity].
    destruct (truthy_string ct); [|reflexivity]. simpl.
    rewrite filter_room_absent; [reflexivity|]. now apply Hdead.
  - destruct (JSMap.get _ (activePlayers st)) as [ct|]; [|reflexivity].
    now destruct (truthy_string ct).
Qed.

Lemma NoDup_two_players : NoDup (connected two_players).
Proof.
  vm_compute. repeat constructor; simpl; intuition discriminate.
Qed.

Lemma damage_dealt_unicast_witness :
  snd (handle (DamageDealt "c1" (hit "p2")) two_players)
  = [("c2", DamageReceived "p1" 25 "spell")] /\
  snd (handle (DamageDealt "c1" (hit "p9")) two_players) = [].
Proof.
  split.
  - destruct (damage_dealt_unicast "c1" (hit "p2") two_players
                _ NoDup_two_players eq_refl) as [Hlive _].
    apply (Hlive "c2"); [reflexivity | vm_compute; tauto | discriminate].
  - destruct (damage_dealt_unicast "c1" (hit "p9") two_players
                _ NoDup_two_players eq_refl) as (_ & Hdead & _).
    apply Hdead. intros ct H. vm_compute in H. discriminate.
Defined.

(** C3 as stated fails both ways.  After [c1] and [c2] joined as [p1] and
    [c1] left, [p1] is registered (its session sits on the open [c2]) and
    a hit on it from the joined [c3] is delivered to nobody.  After [c1],
    registered as [p1], joined again as [p9], no session carries [p1] any
    more and a hit on [p1] from the joined [c2] is still delivered, to
    [c1].  When [c1] then leaves, the player-keyed map still lists [p1],
    and the hit is delivered to nobody. *)
Lemma damage_dealt_misses_registered_player :
  (let st := fst (handle (Disconnect "c1") same_player_twice) in
   JSMap.has "c3" (playerSockets st) = true /\
   session_registered "p1" st /\
   snd (handle (DamageDealt "c3" (hit "p1")) st) = []) /\
  (let st := fst (handle (PlayerJoin "c1" (harry_on "p9")) two_players) in
   JSMap.has "c2" (playerSockets st) = true /\
   ~ session_registered "p1" st /\
   snd (handle (DamageDealt "c2" (hit "p1")) st)
   = [("c1", DamageReceived "p2" 25 "spell")]) /\
  (let st := fst (handle (Disconnect "c1")
                    (fst (handle (PlayerJoin "c1" (harry_on "p9"))
                            two_players))) in
   JSMap.has "c2" (playerSockets st) = true /\
   JSMap.has "p1" (activePlayers st) = true /\
   snd (handle (DamageDealt "c2" (hit "p1")) st) = []).
Proof.
  split; [|split]; cbv zeta.
  - split; [reflexivity|]. split; [|reflexivity].
    exists "c2". eexists. split; [reflexivity|]. split; [reflexivity|].
    vm_compute. tauto.
  - split; [reflexivity|]. split; [|reflexivity].
    intros (c & pd & Hget & Hid & Hin).
    vm_compute in Hin. destruct Hin as [<-|[<-|[]]];
      vm_compute in Hget; injection Hget as <-; discriminate Hid.
  - split; [reflexivity|]. split; reflexivity.
Qed.

(** When the two views agree, the connection reached is the one holding the
    target's session. *)
Lemma damage_dealt_reaches_session (c : string) (data : Damage.data)
  (st : state) (pd target : playerData) (ct : string) :
  consistent st ->
  NoDup (connected st) ->
  JSMap.get c (playerSockets st) = Some pd ->
  JSMap.get ct (playerSockets st) = Some target ->
  playerId target = Damage.targetId data ->
  In ct (connected st) -> ct <> "" ->
  snd (handle (DamageDealt c data) st)
  = [(ct, DamageReceived (playerId pd) (Damage.damage data)
            (Damage.source data))].
Proof.
  intros [Hps _] Hnd Hc Hct Hid Hin Hne.
  unfold handle. simpl. unfold on_damage_dealt. rewrite Hc, <- Hid.
  rewrite (Hps _ _ Hct), (truthy_string_true _ Hne). simpl.
  now rewrite (filter_room_present _ _ Hnd Hin).
Qed.

(** ** Join: roster and announcement *)

Lemma inbox_app c ds1 ds2 : inbox c (ds1 ++ ds2) = inbox c ds1 ++ inbox c ds2.
Proof. unfold inbox. now rewrite filter_app, map_app. Qed.

Lemma inbox_same_message c (m : message) (l : list string) :
  inbox c (map (fun c' => (c', m)) l)
  = map (fun _ => m) (filter (fun c' => c' =? c) l).
Proof.
  unfold inbox. induction l as [|c0 l IH]; simpl; auto.
  destruct (c0 =? c); simpl; now rewrite IH.
Qed.

Lemma others_NoDup c (conns : list string) :
  NoDup conns -> NoDup (filter (fun c' => negb (c' =? c)) conns).
Proof. apply NoDup_filter. Qed.

Lemma in_others c c' (conns : list string) :
  In c' (filter (fun c0 => negb (c0 =? c)) conns) <-> In c' conns /\ c' <> c.
Proof.
  rewrite filter_In. destruct (String.eqb_spec c' c); simpl; intuition congruence.
Qed.

(** What a [socket.broadcast.emit] from [c] puts into each inbox. *)
Lemma inbox_broadcast c c' (m : message) (conns : list string) :
  NoDup conns ->
  inbox c' (deliveries conns [BroadcastEmit c m])
  = if in_dec string_dec c' conns
    then if string_dec c' c then [] else [m]
    else [].
Proof.
  intros Hnd. unfold deliveries. simpl. rewrite app_nil_r, inbox_same_message.
  destruct (in_dec string_dec c' conns) as [Hin|Hout].
  - destruct (string_dec c' c) as [->|Hne].
    + rewrite filter_room_absent; [reflexivity|].
      rewrite in_others. tauto.
    + rewrite filter_room_present; [reflexivity| now apply others_NoDup |].
      rewrite in_others. tauto.
  - rewrite filter_room_absent; [reflexivity|].
    rewrite in_others. tauto.
Qed.

Lemma filter_values {V : Type} (f : V -> bool) (m : JSMap.t V) :
  filter f (JSMap.values m) = JSMap.values (filter (fun kv => f (snd kv)) m).
Proof.
  unfold JSMap.values. induction m as [|[k v] m IH]; simpl; auto.
  destruct (f v); simpl; now rewrite IH.
Qed.

Section JoinFanout.
Import JSMapFacts.

(** C4, as amended: on a join the joiner receives exactly one message, the
    roster, which holds the public fields of exactly the stored sessions
    whose playerId differs from the joiner's (so never the joiner's own
    session); it is the list of all sessions of the other connections
    whenever none of those is registered under the joiner's playerId.
    Every other open connection receives exactly one player-joined
    message with the joiner's public fields, and the joiner receives
    none. *)
Theorem join_roster_and_announcement (c : string) (data : Join.data)
  (st : state) :
  NoDup (connected st) ->
  JSMap.wf (playerSockets st) ->
  let pid := Join.playerId data in
  let out := handle (PlayerJoin c data) st in
  let ps' := playerSockets (fst out) in
  exists roster me,
    JSMap.get c ps' = Some me /\
    to_public me =
      {| Public.playerId := pid; Public.username := Join.username data;
         Public.house := Join.house data;
         Public.position := object_or (Join.position data) Position.origin |} /\
    inbox c (snd out) = [PlayersList roster] /\
    (forall x, In x roster <->
       exists c' pd, JSMap.get c' ps' = Some pd /\ playerId pd <> pid /\
                     x = to_public pd) /\
    ~ In (to_public me) roster /\
    ((forall c' pd, c' <> c -> JSMap.get c' ps' = Some pd ->
                    playerId pd <> pid) ->
       roster = spec_listOthers c ps') /\
    (forall c', c' <> c -> In c' (connected st) ->
       inbox c' (snd out) = [PlayerJoined (to_public me)]) /\
    (forall c', c' <> c -> ~ In c' (connected st) -> inbox c' (snd out) = []).
Proof.
  intros Hnd Hwf pid out ps'.
  set (me := {| playerId := pid; username := Join.username data;
                house := Join.house data;
                position := object_or (Join.position data) Position.origin;
                health := Some 100%Z; maxHealth := Some 100%Z;
                zoneId := None |}).
  assert (Hps' : ps' = JSMap.set c me (playerSockets st)) by reflexivity.
  assert (Hwf' : JSMap.wf ps') by (rewrite Hps'; now apply wf_set).
  set (roster := map to_public
                   (filter (fun p => negb (playerId p =? pid))
                      (JSMap.values ps'))).
  assert (Hout : snd out
                 = (c, PlayersList roster)
                   :: deliveries (connected st)
                        [BroadcastEmit c (PlayerJoined (to_public me))])
    by reflexivity.
  assert (Hroster : forall x, In x roster <->
            exists c' pd, JSMap.get c' ps' = Some pd /\ playerId pd <> pid /\
                          x = to_public pd).
  { intros x. unfold roster. rewrite in_map_iff. split.
    - intros (pd & <- & Hin). apply filter_In in Hin as [Hin Hpid].
      unfold JSMap.values in Hin. apply in_map_iff in Hin as ([k v] & Hv & Hin).
      simpl in Hv. subst v. exists k, pd. repeat split.
      + now apply in_get.
      + destruct (String.eqb_spec (playerId pd) pid); [discriminate|assumption].
    - intros (c' & pd & Hget & Hpid & ->). exists pd. split; [reflexivity|].
      apply filter_In. split.
      + unfold JSMap.values. apply in_map_iff. exists (c', pd).
        split; [reflexivity|]. now apply get_in.
      + destruct (String.eqb_spec (playerId pd) pid); [contradiction|reflexivity]. }
  exists roster, me. repeat split.
  - rewrite Hps'. apply get_set_eq.
  - rewrite Hout.
    change (inbox c ([(c, PlayersList roster)] ++
                     deliveries (connected st)
                       [BroadcastEmit c (PlayerJoined (to_public me))])
            = [PlayersList roster]).
    rewrite inbox_app, inbox_broadcast by assumption.
    unfold inbox at 1. simpl. rewrite String.eqb_refl. simpl.
    destruct (in_dec string_dec c (connected st)); [|reflexivity].
    destruct (string_dec c c); [reflexivity|contradiction].
  - apply Hroster.
  - apply Hroster.
  - intros Hin. apply Hroster in Hin as (c' & pd & _ & Hpid & Heq).
    apply Hpid. change pid with (Public.playerId (to_public me)).
    rewrite Heq. reflexivity.
  - intros Hothers. unfold roster, spec_listOthers.
    rewrite filter_values. unfold JSMap.values. rewrite map_map.
    f_equal. apply filter_ext_in. intros [k pd] Hin. simpl.
    apply in_get in Hin; [|assumption].
    destruct (String.eqb_spec k c) as [->|Hk]; simpl.
    + rewrite Hps', get_set_eq in Hin. injection Hin as <-. simpl.
      now rewrite String.eqb_refl.
    + specialize (Hothers k pd Hk Hin).
      destruct (String.eqb_spec (playerId pd) pid); [contradiction|reflexivity].
  - intros c' Hne Hin. rewrite Hout.
    change (inbox c' ([(c, PlayersList roster)] ++
                      deliveries (connected st)
                        [BroadcastEmit c (PlayerJoined (to_public me))])
            = [PlayerJoined (to_public me)]).
    rewrite inbox_app, inbox_broadcast by assumption.
    unfold inbox at 1. simpl.
    destruct (String.eqb_spec c c'); [congruence|]. simpl.
    destruct (in_dec string_dec c' (connected st)); [|contradiction].
    destruct (string_dec c' c); [contradiction|reflexivity].
  - intros c' Hne Hout'. rewrite Hout.
    change (inbox c' ([(c, PlayersList roster)] ++
                      deliveries (connected st)
                        [BroadcastEmit c (PlayerJoined (to_public me))])
            = []).
    rewrite inbox_app, inbox_broadcast by assumption.
    unfold inbox at 1. simpl.
    destruct (String.eqb_spec c c'); [congruence|]. simpl.
    destruct (in_dec string_dec c' (connected st)); [contradiction|reflexivity].
Qed.

End JoinFanout.

Lemma NoDup_harry_alone : NoDup (connected harry_alone).
Proof.
  vm_compute. repeat constructor; simpl; intuition discriminate.
Qed.

Lemma wf_harry_alone : JSMap.wf (playerSockets harry_alone).
Proof.
  vm_compute. repeat constructor; simpl; intuition discriminate.
Qed.

Lemma join_roster_and_announcement_witness :
  exists roster me,
    inbox "c2" (snd (handle (PlayerJoin "c2" (harry_on "p2")) harry_alone))
    = [PlayersList roster] /\
    inbox "c1" (snd (handle (PlayerJoin "c2" (harry_on "p2")) harry_alone))
    = [PlayerJoined (to_public me)] /\
    Public.playerId (to_public me) = "p2".
Proof.
  destruct (join_roster_and_announcement "c2" (harry_on "p2") harry_alone
              NoDup_harry_alone wf_harry_alone)
    as (roster & me & _ & Hme & Hroster & _ & _ & _ & Hothers & _).
  exists roster, me. split; [|split].
  - exact Hroster.
  - apply Hothers; [discriminate | vm_compute; tauto].
  - now rewrite Hme.
Defined.

(** C4 as stated fails: when [c2] joins under the playerId that [c1] is
    registered with, the session of [c1] stays in the registry, it is the
    one entry the specification's [listOthers] yields for [c2], and the
    roster sent to [c2] is empty. *)
Lemma roster_skips_session_of_same_player :
  let out := handle (PlayerJoin "c2" (harry_on "p1")) harry_alone in
  JSMap.has "c1" (playerSockets (fst out)) = true /\
  spec_listOthers "c2" (playerSockets (fst out))
  = [{| Public.playerId := "p1"; Public.username := "Harry";
        Public.house := "Gryffindor"; Public.position := Position.origin |}] /\
  inbox "c2" (snd out) = [PlayersList []] /\
  inbox "c2" (snd out)
  <> [PlayersList (spec_listOthers "c2" (playerSockets (fst out)))].
Proof.
  repeat split; try reflexivity. vm_compute. discriminate.
Qed.

(** ** Disconnect *)

Section Disconnecting.
Import JSMapFacts.

(** C5: when a connection with a stored session disconnects, every open
    connection that remains receives exactly one player-left message whose
    payload is the bare playerId of that session, the departed connection
    receives nothing, and afterwards neither the playerId resolves nor the
    connection id has a session. *)
Theorem disconnect_announces_and_clears (c : string) (st : state)
  (pd : playerData) :
  NoDup (connected st) ->
  JSMap.get c (playerSockets st) = Some pd ->
  let out := handle (Disconnect c) st in
  (forall c', c' <> c -> In c' (connected st) ->
     inbox c' (snd out) = [PlayerLeft (playerId pd)]) /\
  (forall c', c' = c \/ ~ In c' (connected st) -> inbox c' (snd out) = []) /\
  resolve (playerId pd) (fst out) = None /\
  JSMap.get c (playerSockets (fst out)) = None /\
  ~ In c (connected (fst out)).
Proof.
  intros Hnd Hc out.
  set (rest := filter (fun c' => negb (c' =? c)) (connected st)).
  assert (Hrest : NoDup rest) by now apply others_NoDup.
  assert (Hstep : step (Disconnect c) st
          = (with_registry (with_connected st rest)
               (JSMap.delete (playerId pd) (activePlayers st))
               (JSMap.delete c (playerSockets st)),
             [BroadcastEmit c (PlayerLeft (playerId pd))])).
  { simpl. unfold on_disconnect. simpl. now rewrite Hc. }
  assert (Hsnd : snd out
                 = deliveries rest [BroadcastEmit c (PlayerLeft (playerId pd))]).
  { unfold out, handle. now rewrite Hstep. }
  assert (Hfst : fst out
                 = with_registry (with_connected st rest)
                     (JSMap.delete (playerId pd) (activePlayers st))
                     (JSMap.delete c (playerSockets st))).
  { unfold out, handle. now rewrite Hstep. }
  repeat split.
  - intros c' Hne Hin. rewrite Hsnd, inbox_broadcast by assumption.
    destruct (in_dec string_dec c' rest) as [_|Hout].
    + destruct (string_dec c' c); [contradiction|reflexivity].
    + exfalso. apply Hout. unfold rest. rewrite in_others. tauto.
  - intros c' Hc'. rewrite Hsnd, inbox_broadcast by assumption.
    destruct (in_dec string_dec c' rest) as [Hin|_]; [|reflexivity].
    destruct (string_dec c' c); [reflexivity|].
    unfold rest in Hin. rewrite in_others in Hin. tauto.
  - rewrite Hfst. unfold resolve. simpl. apply get_delete_eq.
  - rewrite Hfst. simpl. apply get_delete_eq.
  - rewrite Hfst. simpl. fold rest. unfold rest. rewrite in_others. tauto.
Qed.

Lemma disconnect_announces_and_clears_witness :
  inbox "c2" (snd (handle (Disconnect "c1") two_players)) = [PlayerLeft "p1"] /\
  resolve "p1" (fst (handle (Disconnect "c1") two_players)) = None /\
  JSMap.get "c1" (playerSockets (fst (handle (Disconnect "c1") two_players)))
  = None.
Proof.
  destruct (disconnect_announces_and_clears "c1" two_players _
              NoDup_two_players eq_refl)
    as (Hleft & _ & Hres & Hget & _).
  split; [|split].
  - apply Hleft; [discriminate | vm_compute; tauto].
  - exact Hres.
  - exact Hget.
Defined.

End Disconnecting.

(** ** Register and resolve *)

Section Registering.
Import JSMapFacts.

Lemma resolve_after_join c data st p :
  resolve p (fst (step (PlayerJoin c data) st))
  = if Join.playerId data =? p then Some c else resolve p st.
Proof.
  unfold resolve. simpl.
  destruct (String.eqb_spec (Join.playerId data) p) as [<-|Hne].
  - apply get_set_eq.
  - now apply get_set_ne.
Qed.

Lemma join_twice c data st :
  step (PlayerJoin c data) (fst (step (PlayerJoin c data) st))
  = step (PlayerJoin c data) st.
Proof.
  simpl. unfold on_player_join. simpl. unfold with_registry. simpl.
  now rewrite !set_set.
Qed.

(** C6: after any sequence of joins, a playerId resolves to the connection
    of the most recent join made under it (and resolves as before when no
    join of the sequence names it); a join always goes through, and making
    the same join twice in a row gives the state and the emissions of
    making it once. *)
Theorem resolve_most_recent_join (joins : list (string * Join.data))
  (st : state) :
  (forall p,
     resolve p (exec (join_events joins) st)
     = match last_registered p joins with
       | Some c => Some c
       | None => resolve p st
       end) /\
  (forall c data,
     resolve (Join.playerId data)
       (exec (join_events (joins ++ [(c, data)])) st) = Some c) /\
  (forall c data,
     step (PlayerJoin c data) (fst (step (PlayerJoin c data) st))
     = step (PlayerJoin c data) st).
Proof.
  assert (Hmain : forall js s p,
            resolve p (exec (join_events js) s)
            = match last_registered p js with
              | Some c => Some c
              | None => resolve p s
              end).
  { induction js as [|[c data] js IH]; intros s p.
    - reflexivity.
    - simpl join_events. rewrite exec_cons, IH. simpl last_registered.
      destruct (last_registered p js); [reflexivity|].
      rewrite resolve_after_join.
      now destruct (Join.playerId data =? p). }
  assert (Hlast : forall js p c data,
            Join.playerId data = p ->
            last_registered p (js ++ [(c, data)]) = Some c).
  { induction js as [|[c0 d0] js IH]; intros p c data Hp; simpl.
    - subst p. now rewrite String.eqb_refl.
    - now rewrite (IH p c data Hp). }
  split; [|split].
  - intros p. apply Hmain.
  - intros c data. rewrite Hmain, (Hlast joins _ c data eq_refl). reflexivity.
  - intros c data. apply join_twice.
Qed.

End Registering.

(** ** Events from a connection that has not joined *)

Section Unjoined.
Import JSMapFacts.

Lemma step_keeps_unjoined e st c :
  JSMap.get c (playerSockets st) = None ->
  is_join_from c e = false ->
  JSMap.get c (playerSockets (fst (step e st))) = None.
Proof.
  intros Hc He.
  destruct e as [c0|c0 data|c0 data|c0 data now|c0 data|c0 data|c0 data now
                |c0|now|body]; simpl in *.
  - exact Hc.
  - rewrite get_set_ne; [exact Hc|].
    destruct (String.eqb_spec c0 c); congruence.
  - unfold on_player_move.
    destruct (JSMap.get c0 (playerSockets st)) eqn:H0; simpl; auto.
    rewrite get_set_ne; [exact Hc|]. congruence.
  - unfold on_spell_cast.
    destruct (JSMap.get c0 (playerSockets st)); simpl; auto.
  - unfold on_damage_dealt.
    destruct (JSMap.get c0 (playerSockets st)); simpl; auto.
    destruct (JSMap.get _ (activePlayers st)) as [t|]; simpl; auto.
    destruct (truthy_string t); simpl; auto.
  - unfold on_player_death.
    destruct (JSMap.get c0 (playerSockets st)); simpl; auto.
  - unfold on_chat_message.
    destruct (JSMap.get c0 (playerSockets st)); simpl; auto.
  - unfold on_disconnect. simpl.
    destruct (JSMap.get c0 (playerSockets st)); simpl; auto.
    destruct (string_dec c0 c) as [->|Hne].
    + apply get_delete_eq.
    + now rewrite get_delete_ne.
  - exact Hc.
  - unfold post_player_position.
    destruct (PositionBody.position body); auto.
    destruct (truthy_string (PositionBody.playerId body)); auto.
    destruct (JSMap.get _ (activePlayers st)) as [sid|]; auto.
    destruct (truthy_string sid); auto.
    destruct (JSMap.get sid (playerSockets st)) eqn:Hsid; auto.
    simpl. rewrite get_set_ne; [exact Hc|]. congruence.
Qed.

Lemma exec_keeps_unjoined evs st c :
  JSMap.get c (playerSockets st) = None ->
  forallb (fun e => negb (is_join_from c e)) evs = true ->
  JSMap.get c (playerSockets (exec evs st)) = None.
Proof.
  revert st. induction evs as [|e evs IH]; intros st Hc Hevs.
  - exact Hc.
  - simpl in Hevs. apply andb_true_iff in Hevs as [He Hevs].
    rewrite exec_cons. apply IH; [|exact Hevs].
    apply step_keeps_unjoined; [exact Hc|].
    now apply negb_true_iff.
Qed.

Lemma unjoined_step_ignored e st c :
  JSMap.get c (playerSockets st) = None ->
  non_join_from c e = true ->
  step e st = (st, []).
Proof.
  intros Hc He.
  destruct e as [c0|c0 data|c0 data|c0 data now|c0 data|c0 data|c0 data now
                |c0|now|body]; simpl in He; try discriminate;
    apply String.eqb_eq in He; subst c0; simpl.
  - unfold on_player_move. now rewrite Hc.
  - unfold on_spell_cast. now rewrite Hc.
  - unfold on_damage_dealt. now rewrite Hc.
  - unfold on_player_death. now rewrite Hc.
  - unfold on_chat_message. now rewrite Hc.
Qed.

(** C7: if connection [c] has sent no join so far, then a move, spell-cast,
    damage-dealt, player-death or chat-message event from [c] changes
    nothing in the state and delivers nothing to anyone; in particular a
    move to (5, 5) before any join is not broadcast. *)
Theorem unjoined_events_ignored (evs : list event) (c : string) :
  forallb (fun e => negb (is_join_from c e)) evs = true ->
  (forall e, non_join_from c e = true ->
     step e (exec evs initial) = (exec evs initial, []) /\
     handle e (exec evs initial) = (exec evs initial, [])) /\
  handle (PlayerMove c {| Move.position :=
                            {| Position.x := 5; Position.y := 5 |} |})
    (exec evs initial) = (exec evs initial, []).
Proof.
  intros Hevs.
  assert (Hc : JSMap.get c (playerSockets (exec evs initial)) = None)
    by (now apply exec_keeps_unjoined).
  assert (Hall : forall e, non_join_from c e = true ->
            step e (exec evs initial) = (exec evs initial, []) /\
            handle e (exec evs initial) = (exec evs initial, [])).
  { intros e He. pose proof (unjoined_step_ignored e _ c Hc He) as Hs.
    split; [exact Hs|]. unfold handle. now rewrite Hs. }
  split; [exact Hall|].
  apply Hall. simpl. apply String.eqb_refl.
Qed.

Lemma unjoined_events_ignored_witness :
  handle (PlayerMove "c2" {| Move.position :=
                               {| Position.x := 5; Position.y := 5 |} |})
    harry_alone = (harry_alone, []).
Proof.
  exact (proj2 (unjoined_events_ignored
                  [Connection "c1"; Connection "c2";
                   PlayerJoin "c1" (harry_on "p1")] "c2" eq_refl)).
Defined.

End Unjoined.

(** ** The recent-spell buffer *)

Lemma push_spell_latest (sp : spellData) (buf : list spellData) :
  List.length buf <= MAX_SPELL_HISTORY ->
  push_spell sp buf
  = skipn (List.length (buf ++ [sp]) - MAX_SPELL_HISTORY) (buf ++ [sp]).
Proof.
  intros Hlen. unfold push_spell.
  assert (Hl : List.length (buf ++ [sp]) = S (List.length buf))
    by (rewrite length_app; simpl; lia).
  destruct (Nat.ltb_spec MAX_SPELL_HISTORY (List.length (buf ++ [sp]))) as [Hgt|Hle].
  - replace (List.length (buf ++ [sp]) - MAX_SPELL_HISTORY) with 1 by lia.
    now destruct (buf ++ [sp]).
  - replace (List.length (buf ++ [sp]) - MAX_SPELL_HISTORY) with 0 by lia.
    reflexivity.
Qed.

Lemma push_all_app es1 es2 buf :
  push_all (es1 ++ es2) buf = push_all es2 (push_all es1 buf).
Proof. unfold push_all. apply fold_left_app. Qed.

Lemma push_all_latest (es buf : list spellData) :
  List.length buf <= MAX_SPELL_HISTORY ->
  push_all es buf
  = skipn (List.length (buf ++ es) - MAX_SPELL_HISTORY) (buf ++ es).
Proof.
  intros Hbuf. induction es as [|sp es IH] using rev_ind.
  - simpl. rewrite app_nil_r.
    replace (List.length buf - MAX_SPELL_HISTORY) with 0 by lia. reflexivity.
  - rewrite push_all_app. simpl. fold (push_all es buf). rewrite IH.
    set (all := buf ++ es).
    set (k := List.length all - MAX_SPELL_HISTORY).
    assert (Hk : k <= List.length all) by (unfold k; lia).
    rewrite push_spell_latest
      by (rewrite length_skipn; unfold k; lia).
    rewrite app_assoc. fold all.
    replace (skipn k all ++ [sp]) with (skipn k (all ++ [sp]))
      by (rewrite skipn_app; replace (k - List.length all) with 0 by lia;
          reflexivity).
    rewrite skipn_skipn. f_equal.
    rewrite length_skipn, !length_app. simpl. unfold k. lia.
Qed.

Lemma appended_casts_same_sessions st1 st2 casts :
  playerSockets st1 = playerSockets st2 ->
  appended_casts st1 casts = appended_casts st2 casts.
Proof.
  intros Hps. induction casts as [|[[c data] now] casts IH]; simpl; auto.
  rewrite Hps, IH. reflexivity.
Qed.

Lemma cast_record_is_appended pd data now :
  {| casterId := playerId pd;
     casterName := username pd;
     spellName := Spell.spellName data;
     spellPosition := Spell.position data;
     direction := Spell.direction data;
     color := object_or (Spell.color data) Color.white;
     damage := number_or (Spell.damage data) 10;
     speed := number_or (Spell.speed data) 5;
     timestamp := now |} = cast_record pd data now.
Proof.
  unfold cast_record, object_or, number_or, truthy_number, Color.white.
  destruct (Spell.color data); destruct (Spell.damage data) as [[|d|d]|];
    destruct (Spell.speed data) as [[|s|s]|]; reflexivity.
Qed.

(** What a run of cast events does to the state: only the buffer changes,
    by one append per cast from a connection that holds a session. *)
Lemma exec_cast_events casts st :
  exec (cast_events casts) st
  = {| connected := connected st; activePlayers := activePlayers st;
       playerSockets := playerSockets st;
       recentSpells := push_all (appended_casts st casts) (recentSpells st) |}.
Proof.
  revert st. induction casts as [|[[c data] now] casts IH]; intros st.
  - now destruct st.
  - simpl cast_events. rewrite exec_cons, IH. simpl step.
    unfold on_spell_cast. simpl appended_casts.
    destruct (JSMap.get c (playerSockets st)) as [pd|] eqn:Hc; simpl.
    + rewrite cast_record_is_appended. f_equal.
      rewrite (appended_casts_same_sessions _ st) by reflexivity.
      reflexivity.
    + reflexivity.
Qed.

(** C8: starting from a state whose buffer is within the capacity bound
    (as every reachable one is), after any sequence of spell-cast events
    the server's buffer holds at most MAX_SPELL_HISTORY = 50 entries: the
    last 50 of the old entries followed by the entries the casts of joined
    senders appended; and once more than 50 entries have been appended it
    holds exactly the 50 most recently appended ones, in arrival order. *)
Theorem spell_buffer_keeps_latest (casts : list (string * Spell.data * Z))
  (st : state) :
  List.length (recentSpells st) <= MAX_SPELL_HISTORY ->
  let st' := exec (cast_events casts) st in
  let appended := appended_casts st casts in
  MAX_SPELL_HISTORY = 50 /\
  List.length (recentSpells st') <= 50 /\
  recentSpells st'
  = skipn (List.length (recentSpells st ++ appended) - 50)
      (recentSpells st ++ appended) /\
  (50 < List.length appended ->
     recentSpells st' = skipn (List.length appended - 50) appended /\
     List.length (recentSpells st') = 50).
Proof.
  intros Hbuf st' appended. unfold st'. rewrite exec_cast_events.
  cbn [recentSpells]. fold appended.
  split; [reflexivity|].
  rewrite (push_all_latest appended (recentSpells st) Hbuf).
  change MAX_SPELL_HISTORY with 50 in *.
  split; [|split].
  - rewrite length_skipn. lia.
  - reflexivity.
  - intros Hes.
    assert (Heq : skipn (List.length (recentSpells st ++ appended) - 50)
                    (recentSpells st ++ appended)
                  = skipn (List.length appended - 50) appended).
    { rewrite skipn_app, length_app.
      rewrite (skipn_all2 (recentSpells st)) by lia. simpl. f_equal. lia. }
    rewrite Heq. split; [reflexivity|]. rewrite length_skipn. lia.
Qed.

Lemma spell_buffer_keeps_latest_witness :
  map timestamp
    (recentSpells (exec (cast_events sixty_cast_events) two_players))
  = map Z.of_nat (seq 10 50) /\
  List.length (recentSpells (exec (cast_events sixty_cast_events) two_players))
  = 50.
Proof.
  destruct (spell_buffer_keeps_latest sixty_cast_events two_players
              (Nat.le_0_l _)) as (_ & _ & _ & Hfull).
  destruct Hfull as [Hlast Hlen]; [vm_compute; lia|].
  split; [|exact Hlen]. rewrite Hlast. vm_compute. reflexivity.
Defined.

(** ** The periodic sweep *)

Lemma nth_error_split {A : Type} (l : list A) (i : nat) (x : A) :
  nth_error l i = Some x ->
  skipn i l = x :: skipn (S i) l /\ firstn (S i) l = firstn i l ++ [x].
Proof.
  revert l. induction i as [|i IH]; intros [|y l]; simpl; try discriminate.
  - intros [= ->]. now destruct l.
  - intros H. destruct (IH l H) as [Hs Hf]. split.
    + exact Hs.
    + f_equal. exact Hf.
Qed.

Lemma cleanup_loop_filter (now : Z) (i : nat) (spells : list spellData) :
  cleanup_loop now i spells
  = firstn i spells
    ++ filter (fun sp => negb (expired now sp)) (skipn i spells).
Proof.
  funelim (cleanup_loop now i spells).
  - (* the entry at [i] exists *)
    destruct (nth_error_split _ _ _ e) as [Hskip Hfirst].
    assert (Hi : i < List.length spells)
      by (apply nth_error_Some; congruence).
    rewrite Hskip. simpl. unfold expired at 1.
    destruct (SPELL_TIMEOUT <? now - timestamp sp)%Z; simpl.
    + rewrite H. unfold splice1.
      rewrite firstn_app, length_firstn, firstn_firstn.
      replace (Nat.min i (List.length spells)) with i by lia.
      replace (Nat.min i i) with i by lia.
      replace (i - i) with 0 by lia. simpl. rewrite app_nil_r.
      rewrite skipn_app, length_firstn.
      replace (Nat.min i (List.length spells)) with i by lia.
      replace (i - i) with 0 by lia. simpl.
      rewrite skipn_all2 by (rewrite length_firstn; lia).
      reflexivity.
    + rewrite H0, Hfirst, <- app_assoc. reflexivity.
  - (* [i] is past the end *)
    pose proof (proj1 (nth_error_None _ _) e) as Hlen.
    rewrite firstn_all2, skipn_all2 by lia. simpl. now rewrite app_nil_r.
Qed.

(** C9: a sweep at time [now] leaves in the buffer exactly the entries
    that are not older than SPELL_TIMEOUT = 5000 ms, in their previous
    order, whatever the size of the buffer; every entry with
    [now - timestamp > 5000] is gone. *)
Theorem cleanup_removes_exactly_expired (now : Z) (st : state) :
  SPELL_TIMEOUT = 5000%Z /\
  recentSpells (cleanup_old_spells now st)
  = filter (fun sp => (now - timestamp sp <=? 5000)%Z) (recentSpells st) /\
  (forall sp, In sp (recentSpells (cleanup_old_spells now st)) <->
              In sp (recentSpells st) /\ (now - timestamp sp <= 5000)%Z) /\
  (forall sp, (now - timestamp sp > 5000)%Z ->
              ~ In sp (recentSpells (cleanup_old_spells now st))).
Proof.
  split; [reflexivity|].
  assert (Heq : recentSpells (cleanup_old_spells now st)
                = filter (fun sp => (now - timestamp sp <=? 5000)%Z)
                    (recentSpells st)).
  { simpl. rewrite cleanup_loop_filter. simpl.
    apply filter_ext. intros sp. unfold expired, SPELL_TIMEOUT.
    destruct (Z.ltb_spec 5000 (now - timestamp sp));
      destruct (Z.leb_spec (now - timestamp sp) 5000); simpl; auto; lia. }
  split; [exact Heq|]. rewrite Heq. split.
  - intros sp. rewrite filter_In, Z.leb_le. reflexivity.
  - intros sp Hold Hin. apply filter_In in Hin as [_ Hle].
    apply Z.leb_le in Hle. lia.
Qed.

Lemma cleanup_removes_exactly_expired_witness :
  map timestamp
    (recentSpells
       (cleanup_old_spells 6000
          {| connected := []; activePlayers := JSMap.empty;
             playerSockets := JSMap.empty;
             recentSpells := [cast_at 0; cast_at 999; cast_at 1000;
                              cast_at 5000; cast_at 10] |}))
  = [1000; 5000]%Z.
Proof.
  rewrite (proj1 (proj2 (cleanup_removes_exactly_expired 6000 _))).
  reflexivity.
Defined.

Lemma step_within_capacity e st :
  List.length (recentSpells st) <= MAX_SPELL_HISTORY ->
  List.length (recentSpells (fst (step e st))) <= MAX_SPELL_HISTORY.
Proof.
  intros Hlen.
  destruct e as [c|c data|c data|c data now|c data|c data|c data now|c|now|body];
    simpl; auto.
  - unfold on_player_move. destruct (JSMap.get c (playerSockets st)); auto.
  - unfold on_spell_cast.
    destruct (JSMap.get c (playerSockets st)); simpl; auto.
    rewrite push_spell_latest by assumption.
    rewrite length_skipn, length_app. simpl. lia.
  - unfold on_damage_dealt. destruct (JSMap.get c (playerSockets st)); auto.
    destruct (JSMap.get _ (activePlayers st)) as [t|]; auto.
    now destruct (truthy_string t).
  - unfold on_player_death. destruct (JSMap.get c (playerSockets st)); auto.
  - unfold on_chat_message. destruct (JSMap.get c (playerSockets st)); auto.
  - unfold on_disconnect. simpl.
    destruct (JSMap.get c (playerSockets st)); auto.
  - rewrite cleanup_loop_filter. simpl.
    etransitivity; [apply filter_length_le | exact Hlen].
  - unfold post_player_position.
    destruct (PositionBody.position body); auto.
    destruct (truthy_string (PositionBody.playerId body)); auto.
    destruct (JSMap.get _ (activePlayers st)) as [sid|]; auto.
    destruct (truthy_string sid); auto.
    destruct (JSMap.get sid (playerSockets st)); auto.
Qed.

(** The buffer of every reachable state is within the capacity bound. *)
Lemma exec_within_capacity evs :
  List.length (recentSpells (exec evs initial)) <= MAX_SPELL_HISTORY.
Proof.
  assert (H : forall st, List.length (recentSpells st) <= MAX_SPELL_HISTORY ->
              List.length (recentSpells (exec evs st)) <= MAX_SPELL_HISTORY).
  { induction evs as [|e evs IH]; intros st Hst; [exact Hst|].
    rewrite exec_cons. apply IH. now apply step_within_capacity. }
  apply H. simpl. lia.
Qed.

(** ** Health carried by the sessions *)

Section Health.
Import JSMapFacts.

Lemma in_deliveries c (m : message) conns es :
  In (c, m) (deliveries conns es) -> exists e, In e es /\ payload e = m.
Proof.
  unfold deliveries. rewrite in_flat_map. intros (e & He & Hin).
  apply in_map_iff in Hin as (c' & [= _ <-] & _). now exists e.
Qed.

Lemma report_misses c body st :
  report_writes c body st = false ->
  JSMap.get c (playerSockets (post_player_position body st))
  = JSMap.get c (playerSockets st).
Proof.
  unfold report_writes, post_player_position, JSMap.has.
  destruct (PositionBody.position body); [|reflexivity].
  destruct (JSMap.get _ (activePlayers st)) as [sid|];
    [|now destruct (truthy_string (PositionBody.playerId body))].
  destruct (truthy_string (PositionBody.playerId body)); [|reflexivity].
  destruct (truthy_string sid); [|reflexivity].
  destruct (JSMap.get sid (playerSockets st)) as [pd|]; [|reflexivity].
  simpl. intros Hne. apply get_set_ne.
  destruct (String.eqb_spec sid c); [discriminate|assumption].
Qed.

Lemma step_healthy_at c e st :
  healthy_at c st ->
  match e with
  | PositionUpdate body => report_writes c body st = false
  | _ => True
  end ->
  healthy_at c (fst (step e st)).
Proof.
  intros Hst He.
  destruct e as [c0|c0 data|c0 data|c0 data now|c0 data|c0 data|c0 data now
                |c0|now|body]; simpl.
  - exact Hst.
  - intros pd. simpl. destruct (string_dec c0 c) as [->|Hne].
    + rewrite get_set_eq. intros [= <-]. now split.
    + rewrite get_set_ne by assumption. apply Hst.
  - unfold on_player_move.
    destruct (JSMap.get c0 (playerSockets st)) as [pd0|] eqn:H0; simpl;
      [|exact Hst].
    intros pd. simpl. destruct (string_dec c0 c) as [->|Hne].
    + rewrite get_set_eq. intros [= <-]. simpl. now apply Hst.
    + rewrite get_set_ne by assumption. apply Hst.
  - unfold on_spell_cast.
    destruct (JSMap.get c0 (playerSockets st)); simpl; exact Hst.
  - unfold on_damage_dealt.
    destruct (JSMap.get c0 (playerSockets st)); simpl; [|exact Hst].
    destruct (JSMap.get _ (activePlayers st)) as [t|]; simpl; [|exact Hst].
    destruct (truthy_string t); exact Hst.
  - unfold on_player_death.
    destruct (JSMap.get c0 (playerSockets st)); simpl; exact Hst.
  - unfold on_chat_message.
    destruct (JSMap.get c0 (playerSockets st)); simpl; exact Hst.
  - unfold on_disconnect. simpl.
    destruct (JSMap.get c0 (playerSockets st)) as [pd0|]; simpl; [|exact Hst].
    intros pd. simpl. destruct (string_dec c0 c) as [->|Hne].
    + now rewrite get_delete_eq.
    + rewrite get_delete_ne by assumption. apply Hst.
  - exact Hst.
  - intros pd. rewrite (report_misses c body st He). apply Hst.
Qed.

Lemma exec_healthy_at c evs st :
  healthy_at c st -> health_unreported c evs st ->
  healthy_at c (exec evs st).
Proof.
  revert st. induction evs as [|e evs IH]; intros st Hst Hevs.
  - exact Hst.
  - destruct Hevs as [He Hrest]. rewrite exec_cons.
    apply IH; [|exact Hrest]. apply step_healthy_at; [exact Hst|].
    destruct e; auto.
Qed.

(** C10: a join stores a session whose health and maxHealth are 100 and
    whose position is the payload's, or (0, 0) when the payload has none,
    whatever else the payload or the earlier state holds; a move reports
    the health values stored in the sender's session; and so, for a
    session created by a join, whatever events follow (reports for other
    players or for nobody included), as long as no REST position report
    has written into that session every player-moved message its moves
    send carries health 100 and maxHealth 100. *)
Theorem join_health_is_100 :
  (forall c data st,
     JSMap.get c (playerSockets (fst (step (PlayerJoin c data) st)))
     = Some {| playerId := Join.playerId data;
               username := Join.username data;
               house := Join.house data;
               position := match Join.position data with
                           | Some pos => pos
                           | None => {| Position.x := 0; Position.y := 0 |}
                           end;
               health := Some 100%Z;
               maxHealth := Some 100%Z;
               zoneId := None |}) /\
  (forall c data st pd c' m,
     JSMap.get c (playerSockets st) = Some pd ->
     In (c', PlayerMoved m) (snd (handle (PlayerMove c data) st)) ->
     Moved.health m = health pd /\ Moved.maxHealth m = maxHealth pd) /\
  (forall c data st evs,
     let joined := fst (step (PlayerJoin c data) st) in
     health_unreported c evs joined ->
     forall mv c' m,
       In (c', PlayerMoved m)
          (snd (handle (PlayerMove c mv) (exec evs joined))) ->
       Moved.health m = Some 100%Z /\ Moved.maxHealth m = Some 100%Z).
Proof.
  assert (Hmove : forall c data st pd c' m,
            JSMap.get c (playerSockets st) = Some pd ->
            In (c', PlayerMoved m) (snd (handle (PlayerMove c data) st)) ->
            Moved.health m = health pd /\ Moved.maxHealth m = maxHealth pd).
  { intros c data st pd c' m Hc Hin. unfold handle in Hin.
    cbn [step] in Hin. unfold on_player_move in Hin. rewrite Hc in Hin.
    cbn [fst snd] in Hin.
    apply in_deliveries in Hin as (e & [<-|[]] & [= <-]). now split. }
  split; [|split].
  - intros c data st. simpl. rewrite get_set_eq.
    unfold object_or, Position.origin. reflexivity.
  - exact Hmove.
  - intros c data st evs joined Hevs mv c' m Hin.
    assert (Hjoined : healthy_at c joined).
    { intros pd. unfold joined. simpl. rewrite get_set_eq.
      intros [= <-]. now split. }
    pose proof (exec_healthy_at c evs joined Hjoined Hevs) as Hnow.
    destruct (JSMap.get c (playerSockets (exec evs joined))) as [pd|] eqn:Hc.
    + destruct (Hmove _ _ _ _ _ _ Hc Hin) as [Hh Hm].
      destruct (Hnow pd Hc) as [H1 H2]. now rewrite Hh, Hm.
    + unfold handle in Hin. cbn [step] in Hin. unfold on_player_move in Hin.
      rewrite Hc in Hin. destruct Hin.
Qed.

Lemma join_health_is_100_witness :
  exists m,
    In ("c2", PlayerMoved m)
       (snd (handle
               (PlayerMove "c1" {| Move.position :=
                                     {| Position.x := 5; Position.y := 5 |} |})
               (exec [PositionUpdate (report "p2" (Some 40%Z));
                      PositionUpdate (report "nobody" None);
                      DamageDealt "c2" (hit "p1")]
                  (fst (step (PlayerJoin "c1" (harry_on "p1"))
                          two_players))))) /\
    Moved.health m = Some 100%Z /\ Moved.maxHealth m = Some 100%Z.
Proof.
  exists {| Moved.playerId := "p1"; Moved.username := "Harry";
            Moved.house := "Gryffindor";
            Moved.position := {| Position.x := 5; Position.y := 5 |};
            Moved.health := Some 100%Z; Moved.maxHealth := Some 100%Z |}.
  split.
  - vm_compute. left. reflexivity.
  - apply (proj2 (proj2 join_health_is_100) "c1" (harry_on "p1") two_players
             [PositionUpdate (report "p2" (Some 40%Z));
              PositionUpdate (report "nobody" None);
              DamageDealt "c2" (hit "p1")]
             ltac:(simpl; repeat split; reflexivity)
             {| Move.position := {| Position.x := 5; Position.y := 5 |} |}
             "c2").
    vm_compute. left. reflexivity.
Defined.

End Health.

(** * Further properties of the event handlers *)

Section MoreFanout.
Import JSMapFacts.

Lemma inbox_io_emit c' (m : message) (conns : list string) :
  NoDup conns ->
  inbox c' (deliveries conns [IoEmit m])
  = if in_dec string_dec c' conns then [m] else [].
Proof.
  intros Hnd. unfold deliveries. simpl. rewrite app_nil_r, inbox_same_message.
  destruct (in_dec string_dec c' conns) as [Hin|Hout].
  - now rewrite filter_room_present.
  - now rewrite filter_room_absent.
Qed.

Lemma inbox_broadcast_other c c' (m : message) (conns : list string) :
  NoDup conns -> c' <> c -> In c' conns ->
  inbox c' (deliveries conns [BroadcastEmit c m]) = [m].
Proof.
  intros Hnd Hne Hin. rewrite inbox_broadcast by assumption.
  destruct (in_dec string_dec c' conns); [|contradiction].
  destruct (string_dec c' c); [contradiction|reflexivity].
Qed.

Lemma inbox_broadcast_none c c' (m : message) (conns : list string) :
  NoDup conns -> c' = c \/ ~ In c' conns ->
  inbox c' (deliveries conns [BroadcastEmit c m]) = [].
Proof.
  intros Hnd Hc. rewrite inbox_broadcast by assumption.
  destruct (in_dec string_dec c' conns); [|reflexivity].
  destruct (string_dec c' c); [reflexivity|tauto].
Qed.

(** X1: a move from a joined connection stores the new position in the
    sender's session and changes nothing else in it, leaves every other
    session and the player-keyed map alone, and reaches every other open
    connection exactly once, with the sender's identity, the new position
    and the stored health values; the sender gets nothing back. *)
Theorem move_stores_and_broadcasts (c : string) (data : Move.data)
  (st : state) (pd : playerData) :
  NoDup (connected st) ->
  JSMap.get c (playerSockets st) = Some pd ->
  let out := handle (PlayerMove c data) st in
  JSMap.get c (playerSockets (fst out))
  = Some {| playerId := playerId pd; username := username pd;
            house := house pd; position := Move.position data;
            health := health pd; maxHealth := maxHealth pd;
            zoneId := zoneId pd |} /\
  (forall c', c' <> c ->
     JSMap.get c' (playerSockets (fst out)) = JSMap.get c' (playerSockets st)) /\
  activePlayers (fst out) = activePlayers st /\
  (forall c', c' <> c -> In c' (connected st) ->
     inbox c' (snd out)
     = [PlayerMoved {| Moved.playerId := playerId pd;
                       Moved.username := username pd;
                       Moved.house := house pd;
                       Moved.position := Move.position data;
                       Moved.health := health pd;
                       Moved.maxHealth := maxHealth pd |}]) /\
  (forall c', c' = c \/ ~ In c' (connected st) -> inbox c' (snd out) = []).
Proof.
  intros Hnd Hc out.
  assert (Hstep : step (PlayerMove c data) st
          = (with_registry st (activePlayers st)
               (JSMap.set c (set_position pd (Move.position data))
                  (playerSockets st)),
             [BroadcastEmit c
                (PlayerMoved {| Moved.playerId := playerId pd;
                                Moved.username := username pd;
                                Moved.house := house pd;
                                Moved.position := Move.position data;
                                Moved.health := health pd;
                                Moved.maxHealth := maxHealth pd |})])).
  { simpl. unfold on_player_move. now rewrite Hc. }
  unfold out, handle. rewrite Hstep. simpl.
  split; [|split; [|split; [|split]]].
  - apply get_set_eq.
  - intros c' Hne. apply get_set_ne. congruence.
  - reflexivity.
  - intros c' Hne Hin. now apply inbox_broadcast_other.
  - intros c' Hc'. now apply inbox_broadcast_none.
Qed.

Lemma move_stores_and_broadcasts_witness :
  inbox "c2"
    (snd (handle (PlayerMove "c1" {| Move.position :=
                                       {| Position.x := 5; Position.y := 7 |} |})
            two_players))
  = [PlayerMoved {| Moved.playerId := "p1"; Moved.username := "Harry";
                    Moved.house := "Gryffindor";
                    Moved.position := {| Position.x := 5; Position.y := 7 |};
                    Moved.health := Some 100%Z;
                    Moved.maxHealth := Some 100%Z |}].
Proof.
  destruct (move_stores_and_broadcasts "c1"
              {| Move.position := {| Position.x := 5; Position.y := 7 |} |}
              two_players _ NoDup_two_players eq_refl)
    as (_ & _ & _ & Hothers & _).
  apply (Hothers "c2"); [discriminate | vm_compute; tauto].
Defined.

(** X2: a spell cast from a joined connection is stamped with the caster's
    playerId and username and the server time, takes damage 10 and speed 5
    when the payload gives none or gives 0, becomes the newest entry of
    the buffer (the oldest entry leaving when the buffer was full), and
    reaches every other open connection exactly once; the registry is not
    touched. *)
Theorem spell_cast_records_and_broadcasts (c : string) (data : Spell.data)
  (now : Z) (st : state) (pd : playerData) :
  NoDup (connected st) ->
  List.length (recentSpells st) <= MAX_SPELL_HISTORY ->
  JSMap.get c (playerSockets st) = Some pd ->
  let out := handle (SpellCast c data now) st in
  exists sp,
    casterId sp = playerId pd /\ casterName sp = username pd /\
    timestamp sp = now /\ spellName sp = Spell.spellName data /\
    damage sp = match Spell.damage data with
                | Some 0%Z | None => 10%Z
                | Some d => d
                end /\
    speed sp = match Spell.speed data with
               | Some 0%Z | None => 5%Z
               | Some s => s
               end /\
    recentSpells (fst out)
    = (if (List.length (recentSpells st) <? MAX_SPELL_HISTORY)%nat
       then recentSpells st else tl (recentSpells st)) ++ [sp] /\
    activePlayers (fst out) = activePlayers st /\
    playerSockets (fst out) = playerSockets st /\
    (forall c', c' <> c -> In c' (connected st) ->
       inbox c' (snd out) = [SpellCasted sp]) /\
    (forall c', c' = c \/ ~ In c' (connected st) -> inbox c' (snd out) = []).
Proof.
  intros Hnd Hlen Hc out.
  set (sp := {| casterId := playerId pd; casterName := username pd;
                spellName := Spell.spellName data;
                spellPosition := Spell.position data;
                direction := Spell.direction data;
                color := object_or (Spell.color data) Color.white;
                damage := number_or (Spell.damage data) 10;
                speed := number_or (Spell.speed data) 5;
                timestamp := now |}).
  assert (Hstep : step (SpellCast c data now) st
          = ({| connected := connected st; activePlayers := activePlayers st;
                playerSockets := playerSockets st;
                recentSpells := push_spell sp (recentSpells st) |},
             [BroadcastEmit c (SpellCasted sp)])).
  { simpl. unfold on_spell_cast. now rewrite Hc. }
  exists sp. unfold out, handle. rewrite Hstep. simpl.
  repeat match goal with |- _ /\ _ => split end; try reflexivity.
  - unfold number_or, truthy_number.
    destruct (Spell.damage data) as [[|d|d]|]; reflexivity.
  - unfold number_or, truthy_number.
    destruct (Spell.speed data) as [[|s|s]|]; reflexivity.
  - unfold push_spell. rewrite length_app. simpl.
    destruct (Nat.ltb_spec (List.length (recentSpells st)) MAX_SPELL_HISTORY)
      as [Hlt|Hge].
    + destruct (Nat.ltb_spec MAX_SPELL_HISTORY (List.length (recentSpells st) + 1));
        [lia|reflexivity].
    + destruct (Nat.ltb_spec MAX_SPELL_HISTORY (List.length (recentSpells st) + 1));
        [|lia].
      destruct (recentSpells st); [simpl in Hge; unfold MAX_SPELL_HISTORY in Hge; lia|].
      reflexivity.
  - intros c' Hne Hin. now apply inbox_broadcast_other.
  - intros c' Hc'. now apply inbox_broadcast_none.
Qed.

Lemma spell_cast_records_and_broadcasts_witness :
  exists sp,
    damage sp = 10%Z /\
    inbox "c2"
      (snd (handle (SpellCast "c1"
                      {| Spell.spellName := "Stupefy";
                         Spell.position := Position.origin;
                         Spell.direction := Position.origin;
                         Spell.color := None;
                         Spell.damage := Some 0%Z;
                         Spell.speed := None |} 1000) two_players))
    = [SpellCasted sp].
Proof.
  destruct (spell_cast_records_and_broadcasts "c1"
              {| Spell.spellName := "Stupefy";
                 Spell.position := Position.origin;
                 Spell.direction := Position.origin;
                 Spell.color := None;
                 Spell.damage := Some 0%Z;
                 Spell.speed := None |} 1000 two_players _
              NoDup_two_players (Nat.le_0_l _) eq_refl)
    as (sp & _ & _ & _ & _ & Hd & _ & _ & _ & _ & Hothers & _).
  exists sp. split; [exact Hd|].
  apply (Hothers "c2"); [discriminate | vm_compute; tauto].
Defined.

(** X3: a chat message from a joined connection reaches every open
    connection exactly once, the sender included, carrying the sender's
    stored username and house, the text and the server time; nothing in
    the state changes. *)
Theorem chat_reaches_everyone (c : string) (data : Chat.data) (now : Z)
  (st : state) (pd : playerData) :
  NoDup (connected st) ->
  JSMap.get c (playerSockets st) = Some pd ->
  let out := handle (ChatSent c data now) st in
  fst out = st /\
  (forall c', In c' (connected st) ->
     inbox c' (snd out)
     = [ChatMessage (username pd) (house pd) (Chat.message data) now]) /\
  (forall c', ~ In c' (connected st) -> inbox c' (snd out) = []).
Proof.
  intros Hnd Hc out.
  assert (Hstep : step (ChatSent c data now) st
          = (st, [IoEmit (ChatMessage (username pd) (house pd)
                            (Chat.message data) now)])).
  { simpl. unfold on_chat_message. now rewrite Hc. }
  unfold out, handle. rewrite Hstep. cbn [fst snd].
  split; [reflexivity|split].
  - intros c' Hin. rewrite inbox_io_emit by assumption.
    destruct (in_dec string_dec c' (connected st)); [reflexivity|contradiction].
  - intros c' Hout. rewrite inbox_io_emit by assumption.
    destruct (in_dec string_dec c' (connected st)); [contradiction|reflexivity].
Qed.

Lemma chat_reaches_everyone_witness :
  inbox "c1" (snd (handle (ChatSent "c1" {| Chat.message := "hi" |} 42)
                     two_players))
  = [ChatMessage "Harry" "Gryffindor" "hi" 42].
Proof.
  destruct (chat_reaches_everyone "c1" {| Chat.message := "hi" |} 42
              two_players _ NoDup_two_players eq_refl) as (_ & Hall & _).
  apply Hall. vm_compute. tauto.
Defined.

(** X4: a death report from a joined connection reaches every other open
    connection exactly once, naming the sender's stored playerId as the
    victim and the killer given in the payload (possibly none); the sender
    gets nothing and the state does not change. *)
Theorem death_is_broadcast_to_others (c : string) (data : Death.data)
  (st : state) (pd : playerData) :
  NoDup (connected st) ->
  JSMap.get c (playerSockets st) = Some pd ->
  let out := handle (PlayerDeath c data) st in
  fst out = st /\
  (forall c', c' <> c -> In c' (connected st) ->
     inbox c' (snd out) = [PlayerDied (playerId pd) (Death.killerId data)]) /\
  (forall c', c' = c \/ ~ In c' (connected st) -> inbox c' (snd out) = []).
Proof.
  intros Hnd Hc out.
  assert (Hstep : step (PlayerDeath c data) st
          = (st, [BroadcastEmit c
                    (PlayerDied (playerId pd) (Death.killerId data))])).
  { simpl. unfold on_player_death. now rewrite Hc. }
  unfold out, handle. rewrite Hstep. simpl.
  split; [reflexivity|split].
  - intros c' Hne Hin. now apply inbox_broadcast_other.
  - intros c' Hc'. now apply inbox_broadcast_none.
Qed.

Lemma death_is_broadcast_to_others_witness :
  inbox "c2" (snd (handle (PlayerDeath "c1" {| Death.killerId := None |})
                     two_players))
  = [PlayerDied "p1" None].
Proof.
  destruct (death_is_broadcast_to_others "c1" {| Death.killerId := None |}
              two_players _ NoDup_two_players eq_refl) as (_ & Hothers & _).
  apply (Hothers "c2"); [discriminate | vm_compute; tauto].
Defined.

End MoreFanout.

(** ** How the registry moves *)

Section RegistryDynamics.
Import JSMapFacts.

Lemma delete_set_absent {V : Type} (k : string) (v : V) (m : JSMap.t V) :
  JSMap.get k m = None -> JSMap.delete k (JSMap.set k v m) = m.
Proof.
  induction m as [|[k' v'] m IH]; simpl.
  - now rewrite String.eqb_refl.
  - destruct (k =? k') eqn:E; [discriminate|]. simpl. rewrite E.
    intros H. f_equal. auto.
Qed.

(** X5: when a connection that holds no session disconnects, nobody is
    told, both maps and the spell buffer stay as they are, and the only
    change is that the connection is no longer open. *)
Theorem disconnect_without_session_is_silent (c : string) (st : state) :
  JSMap.get c (playerSockets st) = None ->
  let out := handle (Disconnect c) st in
  snd out = [] /\
  activePlayers (fst out) = activePlayers st /\
  playerSockets (fst out) = playerSockets st /\
  recentSpells (fst out) = recentSpells st /\
  (forall c', In c' (connected (fst out)) <-> In c' (connected st) /\ c' <> c).
Proof.
  intros Hc out.
  assert (Hstep : step (Disconnect c) st
          = (with_connected st
               (filter (fun c' => negb (c' =? c)) (connected st)), [])).
  { simpl. unfold on_disconnect. simpl. now rewrite Hc. }
  unfold out, handle. rewrite Hstep. simpl.
  repeat match goal with |- _ /\ _ => split end; try reflexivity.
  intros c'. apply in_others.
Qed.

Lemma disconnect_without_session_is_silent_witness :
  snd (handle (Disconnect "c2") harry_alone) = [] /\
  playerSockets (fst (handle (Disconnect "c2") harry_alone))
  = playerSockets harry_alone.
Proof.
  destruct (disconnect_without_session_is_silent "c2" harry_alone eq_refl)
    as (Hnone & _ & Hps & _).
  split; [exact Hnone | exact Hps].
Defined.

(** X6: the disconnect handler deletes the pointer of the leaving
    session's playerId whichever connection it points to.  So when two
    connections hold sessions under one playerId and one of them
    disconnects, the other session stays stored, its playerId no longer
    resolves, and a damage event aimed at that playerId is delivered to
    nobody. *)
Theorem disconnect_unroutes_namesake (c c' : string) (st : state)
  (pd pd' : playerData) :
  c <> c' ->
  JSMap.get c (playerSockets st) = Some pd ->
  JSMap.get c' (playerSockets st) = Some pd' ->
  playerId pd' = playerId pd ->
  let st' := fst (handle (Disconnect c) st) in
  JSMap.get c' (playerSockets st') = Some pd' /\
  resolve (playerId pd') st' = None /\
  forall sender data,
    Damage.targetId data = playerId pd' ->
    snd (handle (DamageDealt sender data) st') = [].
Proof.
  intros Hne Hc Hc' Hid st'.
  assert (Hst' : st'
          = with_registry
              (with_connected st
                 (filter (fun c0 => negb (c0 =? c)) (connected st)))
              (JSMap.delete (playerId pd) (activePlayers st))
              (JSMap.delete c (playerSockets st))).
  { unfold st', handle. simpl. unfold on_disconnect. simpl. now rewrite Hc. }
  assert (Hres : resolve (playerId pd') st' = None).
  { rewrite Hst', Hid. unfold resolve. simpl. apply get_delete_eq. }
  split; [|split].
  - rewrite Hst'. simpl. now rewrite get_delete_ne.
  - exact Hres.
  - intros sender data Ht. unfold handle. simpl. unfold on_damage_dealt.
    unfold resolve in Hres. rewrite Ht, Hres.
    now destruct (JSMap.get sender (playerSockets st')).
Qed.

Lemma disconnect_unroutes_namesake_witness :
  JSMap.has "c2"
    (playerSockets (fst (handle (Disconnect "c1") same_player_twice))) = true /\
  snd (handle (DamageDealt "c3" (hit "p1"))
         (fst (handle (Disconnect "c1") same_player_twice))) = [].
Proof.
  destruct (disconnect_unroutes_namesake "c1" "c2" same_player_twice _ _
              ltac:(discriminate) eq_refl eq_refl eq_refl)
    as (Hkept & _ & Hdrop).
  split.
  - unfold JSMap.has. now rewrite Hkept.
  - apply Hdrop. reflexivity.
Defined.

(** X7: a join writes only the joiner's own entries: every other playerId
    resolves as before, every other connection's session is as before,
    the joiner's playerId resolves to the joiner, and no key of either
    map is ever removed by a join. *)
Theorem join_writes_only_own_entries (c : string) (data : Join.data)
  (st : state) :
  let st' := fst (step (PlayerJoin c data) st) in
  resolve (Join.playerId data) st' = Some c /\
  (forall p, p <> Join.playerId data -> resolve p st' = resolve p st) /\
  (forall c', c' <> c ->
     JSMap.get c' (playerSockets st') = JSMap.get c' (playerSockets st)) /\
  (forall p, In p (JSMap.keys (activePlayers st)) ->
             In p (JSMap.keys (activePlayers st'))) /\
  (forall c', In c' (JSMap.keys (playerSockets st)) ->
              In c' (JSMap.keys (playerSockets st'))).
Proof.
  intros st'. unfold st', resolve. simpl.
  split; [|split; [|split; [|split]]].
  - apply get_set_eq.
  - intros p Hp. apply get_set_ne. congruence.
  - intros c' Hc'. apply get_set_ne. congruence.
  - intros p. rewrite !in_keys_get.
    destruct (string_dec (Join.playerId data) p) as [<-|Hne].
    + rewrite get_set_eq. discriminate.
    + now rewrite get_set_ne.
  - intros c'. rewrite !in_keys_get.
    destruct (string_dec c c') as [<-|Hne].
    + rewrite get_set_eq. discriminate.
    + now rewrite get_set_ne.
Qed.

Lemma join_writes_only_own_entries_witness :
  resolve "p1" (fst (step (PlayerJoin "c2" (harry_on "p2")) harry_alone))
  = Some "c1".
Proof.
  rewrite (proj1 (proj2 (join_writes_only_own_entries "c2" (harry_on "p2")
                           harry_alone)) "p1" ltac:(discriminate)).
  reflexivity.
Defined.

(** X8: when a connection that is registered under one playerId joins
    again under another, the old playerId keeps resolving to that
    connection although its session now carries the new playerId; damage
    aimed at the old playerId is then delivered to that connection. *)
Theorem rejoin_keeps_old_name_routed (c sender : string) (data : Join.data)
  (hitdata : Damage.data) (st : state) (pd spd : playerData) :
  NoDup (connected st) -> In c (connected st) -> c <> "" ->
  JSMap.get c (playerSockets st) = Some pd ->
  resolve (playerId pd) st = Some c ->
  Join.playerId data <> playerId pd ->
  sender <> c ->
  JSMap.get sender (playerSockets st) = Some spd ->
  Damage.targetId hitdata = playerId pd ->
  let st' := fst (handle (PlayerJoin c data) st) in
  resolve (playerId pd) st' = Some c /\
  (exists pd', JSMap.get c (playerSockets st') = Some pd' /\
               playerId pd' = Join.playerId data) /\
  snd (handle (DamageDealt sender hitdata) st')
  = [(c, DamageReceived (playerId spd) (Damage.damage hitdata)
           (Damage.source hitdata))].
Proof.
  intros Hnd Hin Hne Hc Hres Hnew Hsender Hs Ht st'.
  assert (Hres' : resolve (playerId pd) st' = Some c).
  { unfold st', handle, resolve. simpl.
    rewrite get_set_ne by assumption. exact Hres. }
  assert (Hs' : JSMap.get sender (playerSockets st') = Some spd).
  { unfold st', handle. simpl. rewrite get_set_ne by congruence. exact Hs. }
  split; [exact Hres'|split].
  - eexists. split; [unfold st', handle; simpl; apply get_set_eq|reflexivity].
  - unfold handle at 1. cbn [step]. unfold on_damage_dealt.
    unfold resolve in Hres'. rewrite Hs', Ht, Hres'.
    rewrite (truthy_string_true _ Hne). cbn [fst snd].
    unfold deliveries. simpl.
    replace (connected st') with (connected st) by reflexivity.
    rewrite (filter_room_present _ _ Hnd Hin). reflexivity.
Qed.

Lemma rejoin_keeps_old_name_routed_witness :
  snd (handle (DamageDealt "c2" (hit "p1"))
         (fst (handle (PlayerJoin "c1" (harry_on "p9")) two_players)))
  = [("c1", DamageReceived "p2" 25 "spell")].
Proof.
  destruct (rejoin_keeps_old_name_routed "c1" "c2" (harry_on "p9") (hit "p1")
              two_players _ _ NoDup_two_players
              ltac:(vm_compute; tauto) ltac:(discriminate)
              eq_refl eq_refl ltac:(discriminate) ltac:(discriminate)
              eq_refl eq_refl)
    as (_ & _ & Hd).
  exact Hd.
Defined.

(** X9: events other than join, move, disconnect and the REST position
    update leave both registry maps exactly as they were; events other
    than spell casts and the sweep leave the spell buffer as it was; and
    only connection and disconnection change the set of open sockets. *)
Theorem events_write_only_their_part (e : event) (st : state) :
  (writes_registry e = false ->
     activePlayers (fst (step e st)) = activePlayers st /\
     playerSockets (fst (step e st)) = playerSockets st) /\
  (writes_spells e = false ->
     recentSpells (fst (step e st)) = recentSpells st) /\
  (changes_connections e = false ->
     connected (fst (step e st)) = connected st).
Proof.
  destruct e as [c|c data|c data|c data now|c data|c data|c data now|c|now|body];
    simpl; (split; [|split]); intros H; try discriminate H; clear H;
    repeat match goal with
      | |- context [on_player_move] => unfold on_player_move
      | |- context [on_spell_cast] => unfold on_spell_cast
      | |- context [on_damage_dealt] => unfold on_damage_dealt
      | |- context [on_player_death] => unfold on_player_death
      | |- context [on_chat_message] => unfold on_chat_message
      | |- context [on_disconnect] => unfold on_disconnect
      | |- context [post_player_position] => unfold post_player_position
      | |- context [match JSMap.get ?k ?m with _ => _ end] =>
          destruct (JSMap.get k m)
      | |- context [if truthy_string ?s then _ else _] =>
          destruct (truthy_string s)
      | |- context [match PositionBody.position ?b with _ => _ end] =>
          destruct (PositionBody.position b)
      end; try split; reflexivity.
Qed.

Lemma events_write_only_their_part_witness :
  playerSockets (fst (step (SpellCast "c1"
                             {| Spell.spellName := "Lumos";
                                Spell.position := Position.origin;
                                Spell.direction := Position.origin;
                                Spell.color := None; Spell.damage := None;
                                Spell.speed := None |} 5) two_players))
  = playerSockets two_players.
Proof.
  apply (proj1 (events_write_only_their_part _ two_players)). reflexivity.
Defined.

(** X10: a join by a connection without a session under a playerId that
    is not registered, followed by the disconnect of that connection,
    puts both maps back exactly as they were before the join. *)
Theorem join_then_disconnect_restores (c : string) (data : Join.data)
  (st : state) :
  JSMap.get c (playerSockets st) = None ->
  resolve (Join.playerId data) st = None ->
  let st' := exec [PlayerJoin c data; Disconnect c] st in
  activePlayers st' = activePlayers st /\
  playerSockets st' = playerSockets st /\
  recentSpells st' = recentSpells st.
Proof.
  intros Hc Hp st'. unfold st'. rewrite !exec_cons.
  unfold exec. simpl. unfold on_disconnect. simpl.
  rewrite get_set_eq. simpl.
  rewrite !delete_set_absent by assumption. repeat split; reflexivity.
Qed.

Lemma join_then_disconnect_restores_witness :
  playerSockets (exec [PlayerJoin "c2" (harry_on "p2"); Disconnect "c2"]
                   harry_alone)
  = playerSockets harry_alone.
Proof.
  destruct (join_then_disconnect_restores "c2" (harry_on "p2") harry_alone
              eq_refl eq_refl) as (_ & Hps & _).
  exact Hps.
Defined.

(** X11: of two moves in a row from one connection only the second is
    remembered: the state after both is the state after the second
    alone, whether or not the connection has joined. *)
Theorem later_move_overwrites (c : string) (d1 d2 : Move.data) (st : state) :
  exec [PlayerMove c d1; PlayerMove c d2] st = exec [PlayerMove c d2] st.
Proof.
  rewrite !exec_cons. unfold exec. simpl. unfold on_player_move.
  destruct (JSMap.get c (playerSockets st)) as [pd|] eqn:Hc; simpl.
  - rewrite get_set_eq. simpl. unfold with_registry. simpl.
    rewrite set_set. reflexivity.
  - now rewrite Hc.
Qed.

End RegistryDynamics.

(** ** More on the sweep *)

Lemma filter_filter_implied {A : Type} (f g : A -> bool) (l : list A) :
  (forall a, g a = true -> f a = true) ->
  filter g (filter f l) = filter g l.
Proof.
  intros Himp. induction l as [|a l IH]; simpl; auto.
  destruct (f a) eqn:Ef; simpl.
  - now rewrite IH.
  - destruct (g a) eqn:Eg; [|exact IH].
    rewrite (Himp a Eg) in Ef. discriminate.
Qed.

(** X12: sweeps compose: a sweep at a later time after a sweep at an
    earlier time leaves what the later sweep alone would leave; in
    particular sweeping twice at the same time is sweeping once. *)
Theorem later_sweep_subsumes_earlier (now1 now2 : Z) (st : state) :
  (now1 <= now2)%Z ->
  cleanup_old_spells now2 (cleanup_old_spells now1 st)
  = cleanup_old_spells now2 st.
Proof.
  intros Hle. unfold cleanup_old_spells. simpl. f_equal.
  rewrite !cleanup_loop_filter. simpl.
  apply filter_filter_implied. intros sp. unfold expired.
  destruct (Z.ltb_spec SPELL_TIMEOUT (now2 - timestamp sp));
    destruct (Z.ltb_spec SPELL_TIMEOUT (now1 - timestamp sp));
    simpl; auto; lia.
Qed.

Lemma later_sweep_subsumes_earlier_witness :
  map timestamp
    (recentSpells
       (cleanup_old_spells 7000
          (cleanup_old_spells 6000
             {| connected := []; activePlayers := JSMap.empty;
                playerSockets := JSMap.empty;
                recentSpells := [cast_at 0; cast_at 1500; cast_at 3000] |})))
  = [3000]%Z.
Proof.
  rewrite (later_sweep_subsumes_earlier 6000 7000 _ ltac:(lia)).
  reflexivity.
Defined.

Lemma time_ordered_tail sp buf : time_ordered (sp :: buf) -> time_ordered buf.
Proof. unfold time_ordered. simpl. intros H. now inversion H. Qed.

Lemma time_ordered_head sp buf sp' :
  time_ordered (sp :: buf) -> In sp' buf -> (timestamp sp <= timestamp sp')%Z.
Proof.
  unfold time_ordered. simpl. intros H Hin. inversion H as [|? ? _ Hall]; subst.
  rewrite Forall_forall in Hall. apply Hall. now apply in_map.
Qed.

Lemma time_ordered_skipn k buf : time_ordered buf -> time_ordered (skipn k buf).
Proof.
  revert buf. induction k as [|k IH]; intros [|sp buf] H; simpl; auto.
  apply IH. eapply time_ordered_tail; eauto.
Qed.

Lemma time_ordered_snoc buf sp :
  time_ordered buf ->
  (forall sp', In sp' buf -> (timestamp sp' <= timestamp sp)%Z) ->
  time_ordered (buf ++ [sp]).
Proof.
  unfold time_ordered. induction buf as [|sp0 buf IH]; simpl; intros H Hmax.
  - repeat constructor.
  - inversion H as [|? ? Hs Hall]; subst. constructor.
    + apply IH; auto.
    + rewrite map_app, Forall_app. split; [exact Hall|].
      repeat constructor. apply Hmax. now left.
Qed.

(** X13: on a buffer that lists its casts oldest first, a sweep removes a
    leading segment and nothing else: what is left is the buffer from
    some position on, every entry before that position was older than
    the threshold, and the rest is still oldest first.  Recording a cast
    that is at least as recent as every stored one keeps the buffer
    oldest first. *)
Theorem sweep_drops_oldest_first (now : Z) (st : state) :
  time_ordered (recentSpells st) ->
  (exists k,
     recentSpells (cleanup_old_spells now st) = skipn k (recentSpells st) /\
     (forall sp, In sp (firstn k (recentSpells st)) ->
                 (now - timestamp sp > SPELL_TIMEOUT)%Z)) /\
  time_ordered (recentSpells (cleanup_old_spells now st)) /\
  (forall sp,
     List.length (recentSpells st) <= MAX_SPELL_HISTORY ->
     (forall sp', In sp' (recentSpells st) ->
                  (timestamp sp' <= timestamp sp)%Z) ->
     time_ordered (push_spell sp (recentSpells st))).
Proof.
  intros Hord.
  assert (Hprefix : exists k,
            recentSpells (cleanup_old_spells now st)
            = skipn k (recentSpells st) /\
            (forall sp, In sp (firstn k (recentSpells st)) ->
                        (now - timestamp sp > SPELL_TIMEOUT)%Z)).
  { simpl. rewrite cleanup_loop_filter. simpl.
    induction (recentSpells st) as [|sp buf IH].
    - exists 0. split; [reflexivity | intros sp []].
    - simpl. unfold expired at 1.
      destruct (Z.ltb_spec SPELL_TIMEOUT (now - timestamp sp)) as [Hold|Hnew];
        simpl.
      + destruct (IH (time_ordered_tail _ _ Hord)) as (k & Hk & Hfirst).
        exists (S k). split; [exact Hk|].
        simpl. intros sp' [<-|Hin]; [lia | now apply Hfirst].
      + exists 0. split; [|intros sp' []]. simpl. f_equal.
        rewrite <- (filter_ext_in (fun _ => true)).
        * clear. induction buf as [|a l IHl]; simpl; [reflexivity|now f_equal].
        * intros sp' Hin. symmetry. unfold expired.
          pose proof (time_ordered_head _ _ _ Hord Hin).
          destruct (Z.ltb_spec SPELL_TIMEOUT (now - timestamp sp')); [lia|reflexivity]. }
  split; [exact Hprefix|split].
  - destruct Hprefix as (k & -> & _). now apply time_ordered_skipn.
  - intros sp Hlen Hmax. rewrite push_spell_latest by assumption.
    apply time_ordered_skipn. now apply time_ordered_snoc.
Qed.

Lemma sweep_drops_oldest_first_witness :
  exists k,
    recentSpells
      (cleanup_old_spells 6000
         {| connected := []; activePlayers := JSMap.empty;
            playerSockets := JSMap.empty;
            recentSpells := [cast_at 0; cast_at 500; cast_at 3000] |})
    = skipn k [cast_at 0; cast_at 500; cast_at 3000].
Proof.
  destruct (sweep_drops_oldest_first 6000
              {| connected := []; activePlayers := JSMap.empty;
                 playerSockets := JSMap.empty;
                 recentSpells := [cast_at 0; cast_at 500; cast_at 3000] |})
    as ((k & Hk & _) & _).
  - unfold time_ordered. simpl.
    repeat constructor; simpl; lia.
  - exists k. exact Hk.
Defined.

(** ** The REST routes that share the registry *)

Section RestRoutes.
Import JSMapFacts.

(** X14: a position report whose playerId resolves to a stored session
    overwrites that session's position, zone, health and maxHealth with
    the fields of the request (missing ones included) and keeps its
    playerId, username and house; no other session, no pointer and no key
    changes, and nothing is emitted to any socket. *)
Theorem position_report_overwrites_session (body : PositionBody.data)
  (st : state) (pos : Position.t) (sid : string) (pd : playerData) :
  PositionBody.position body = Some pos ->
  PositionBody.playerId body <> "" ->
  resolve (PositionBody.playerId body) st = Some sid ->
  sid <> "" ->
  JSMap.get sid (playerSockets st) = Some pd ->
  let st' := fst (step (PositionUpdate body) st) in
  JSMap.get sid (playerSockets st')
  = Some {| playerId := playerId pd; username := username pd;
            house := house pd; position := pos;
            health := PositionBody.health body;
            maxHealth := PositionBody.maxHealth body;
            zoneId := PositionBody.zoneId body |} /\
  (forall c, c <> sid ->
     JSMap.get c (playerSockets st') = JSMap.get c (playerSockets st)) /\
  JSMap.keys (playerSockets st') = JSMap.keys (playerSockets st) /\
  activePlayers st' = activePlayers st /\
  snd (handle (PositionUpdate body) st) = [].
Proof.
  intros Hpos Hid Hres Hsid Hget st'.
  assert (Hst' : st'
          = with_registry st (activePlayers st)
              (JSMap.set sid
                 {| playerId := playerId pd; username := username pd;
                    house := house pd; position := pos;
                    health := PositionBody.health body;
                    maxHealth := PositionBody.maxHealth body;
                    zoneId := PositionBody.zoneId body |}
                 (playerSockets st))).
  { unfold st'. simpl. unfold post_player_position. unfold resolve in Hres.
    now rewrite Hpos, (truthy_string_true _ Hid), Hres,
      (truthy_string_true _ Hsid), Hget. }
  rewrite Hst'. simpl. split; [|split; [|split; [|split]]].
  - apply get_set_eq.
  - intros c Hc. apply get_set_ne. congruence.
  - apply keys_set_in, in_keys_get. congruence.
  - reflexivity.
  - reflexivity.
Qed.

Lemma position_report_overwrites_session_witness :
  option_map health
    (JSMap.get "c1"
       (playerSockets (fst (step (PositionUpdate (report "p1" None))
                              two_players)))) = Some None.
Proof.
  destruct (position_report_overwrites_session (report "p1" None) two_players
              _ "c1" _ eq_refl ltac:(discriminate) eq_refl
              ltac:(discriminate) eq_refl) as (Hget & _).
  now rewrite Hget.
Defined.

(** X15: a position report without a position, with an empty playerId,
    for a playerId that does not resolve, or for one that resolves to a
    connection without a session leaves the state untouched. *)
Theorem position_report_ignored (body : PositionBody.data) (st : state) :
  PositionBody.position body = None \/
  PositionBody.playerId body = "" \/
  resolve (PositionBody.playerId body) st = None \/
  (exists sid, resolve (PositionBody.playerId body) st = Some sid /\
               JSMap.get sid (playerSockets st) = None) ->
  step (PositionUpdate body) st = (st, []).
Proof.
  unfold resolve. simpl. unfold post_player_position.
  intros [Hpos|[Hid|[Hres|(sid & Hres & Hget)]]].
  - now rewrite Hpos.
  - rewrite Hid. now destruct (PositionBody.position body).
  - rewrite Hres. destruct (PositionBody.position body); [|reflexivity].
    now destruct (truthy_string (PositionBody.playerId body)).
  - rewrite Hres, Hget. destruct (PositionBody.position body); [|reflexivity].
    destruct (truthy_string (PositionBody.playerId body)); [|reflexivity].
    now destruct (truthy_string sid).
Qed.

Lemma position_report_ignored_witness :
  step (PositionUpdate (report "nobody" (Some 50%Z))) two_players
  = (two_players, []).
Proof.
  apply position_report_ignored. right. right. left. reflexivity.
Defined.

(** X16: after a position report has been applied to a session, the next
    move from that session's connection tells every other open connection
    the health and maxHealth the report carried, a missing value being
    passed on as missing. *)
Theorem move_reports_posted_health (body : PositionBody.data)
  (data : Move.data) (st : state) (pos : Position.t) (sid : string)
  (pd : playerData) :
  NoDup (connected st) ->
  PositionBody.position body = Some pos ->
  PositionBody.playerId body <> "" ->
  resolve (PositionBody.playerId body) st = Some sid ->
  sid <> "" ->
  JSMap.get sid (playerSockets st) = Some pd ->
  let st' := fst (step (PositionUpdate body) st) in
  forall c', c' <> sid -> In c' (connected st) ->
    inbox c' (snd (handle (PlayerMove sid data) st'))
    = [PlayerMoved {| Moved.playerId := playerId pd;
                      Moved.username := username pd;
                      Moved.house := house pd;
                      Moved.position := Move.position data;
                      Moved.health := PositionBody.health body;
                      Moved.maxHealth := PositionBody.maxHealth body |}].
Proof.
  intros Hnd Hpos Hid Hres Hsid Hget st' c' Hne Hin.
  assert (Hst' : st'
          = with_registry st (activePlayers st)
              (JSMap.set sid
                 {| playerId := playerId pd; username := username pd;
                    house := house pd; position := pos;
                    health := PositionBody.health body;
                    maxHealth := PositionBody.maxHealth body;
                    zoneId := PositionBody.zoneId body |}
                 (playerSockets st))).
  { unfold st'. simpl. unfold post_player_position. unfold resolve in Hres.
    now rewrite Hpos, (truthy_string_true _ Hid), Hres,
      (truthy_string_true _ Hsid), Hget. }
  unfold handle. cbn [step]. unfold on_player_move.
  rewrite Hst'. cbn [playerSockets with_registry]. rewrite get_set_eq.
  cbn [fst snd connected with_registry playerId username house health maxHealth].
  now apply inbox_broadcast_other.
Qed.

Lemma move_reports_posted_health_witness :
  inbox "c2"
    (snd (handle (PlayerMove "c1" {| Move.position := Position.origin |})
            (fst (step (PositionUpdate (report "p1" None)) two_players))))
  = [PlayerMoved {| Moved.playerId := "p1"; Moved.username := "Harry";
                    Moved.house := "Gryffindor";
                    Moved.position := Position.origin;
                    Moved.health := None;
                    Moved.maxHealth := Some 120%Z |}].
Proof.
  apply (move_reports_posted_health (report "p1" None)
           {| Move.position := Position.origin |} two_players
           {| Position.x := 3; Position.y := 4 |} "c1"
           {| playerId := "p1"; username := "Harry"; house := "Gryffindor";
              position := Position.origin; health := Some 100%Z;
              maxHealth := Some 100%Z; zoneId := None |}
           NoDup_two_players eq_refl ltac:(discriminate) eq_refl
           ltac:(discriminate) eq_refl "c2" ltac:(discriminate)).
  vm_compute. tauto.
Defined.

Lemma number_or_nonzero v d : d <> 0%Z -> number_or v d <> 0%Z.
Proof.
  intros Hd. unfold number_or, truthy_number.
  destruct v as [n|]; [|exact Hd].
  destruct (Z.eqb_spec n 0); simpl; auto.
Qed.

(** X17: the handler of [GET /player/active] lists one entry per stored
    session, in registry order, with the session's playerId, username,
    house and position; it never shows a health or maxHealth of 0 and
    never an empty zone: a stored health or maxHealth that is missing or
    0 is shown as 100, any other stored value as it is, and a zone that
    is missing or empty is shown as "unknown", any other zone as it
    is. *)
Theorem listing_fills_in_defaults (st : state) :
  map ActivePlayer.playerId (get_player_active st)
  = map playerId (JSMap.values (playerSockets st)) /\
  (forall a, In a (get_player_active st) ->
     ActivePlayer.health a <> 0%Z /\ ActivePlayer.maxHealth a <> 0%Z /\
     ActivePlayer.zoneId a <> "") /\
  (forall c pd, JSMap.get c (playerSockets st) = Some pd ->
     exists a, In a (get_player_active st) /\
       ActivePlayer.playerId a = playerId pd /\
       ActivePlayer.username a = username pd /\
       ActivePlayer.house a = house pd /\
       ActivePlayer.position a = position pd /\
       ActivePlayer.health a = match health pd with
                               | Some 0%Z | None => 100%Z
                               | Some h => h
                               end /\
       ActivePlayer.maxHealth a = match maxHealth pd with
                                  | Some 0%Z | None => 100%Z
                                  | Some h => h
                                  end /\
       ActivePlayer.zoneId a = match zoneId pd with
                               | None => "unknown"
                               | Some z => if z =? "" then "unknown" else z
                               end).
Proof.
  unfold get_player_active. split; [|split].
  - rewrite map_map. reflexivity.
  - intros a Hin. apply in_map_iff in Hin as (pd & <- & _). simpl.
    split; [|split].
    + apply number_or_nonzero. discriminate.
    + apply number_or_nonzero. discriminate.
    + unfold string_or, truthy_string.
      destruct (zoneId pd) as [z|]; [|discriminate].
      destruct (String.eqb_spec z ""); simpl; [discriminate|assumption].
  - intros c pd Hget. eexists. split.
    + apply in_map_iff. exists pd. split; [reflexivity|].
      unfold JSMap.values. apply in_map_iff. exists (c, pd).
      split; [reflexivity | now apply get_in].
    + simpl. unfold number_or, truthy_number, string_or, truthy_string.
      repeat match goal with |- _ /\ _ => split end; try reflexivity.
      * destruct (health pd) as [[|h|h]|]; reflexivity.
      * destruct (maxHealth pd) as [[|h|h]|]; reflexivity.
      * destruct (zoneId pd) as [z|]; [|reflexivity].
        now destruct (z =? "").
Qed.

Lemma listing_fills_in_defaults_witness :
  exists a,
    In a (get_player_active
            (fst (step (PositionUpdate (report "p1" (Some 0%Z))) two_players))) /\
    ActivePlayer.playerId a = "p1" /\ ActivePlayer.health a = 100%Z.
Proof.
  destruct (proj2 (proj2 (listing_fills_in_defaults
              (fst (step (PositionUpdate (report "p1" (Some 0%Z)))
                      two_players)))) "c1" _ eq_refl)
    as (a & Hin & Hid & _ & _ & _ & Hh & _).
  exists a. split; [exact Hin|]. split; [exact Hid | exact Hh].
Defined.

Lemma entry_socket_get (id : string) (ap : JSMap.t string) :
  entry_socket id ap = JSMap.get id ap.
Proof.
  unfold entry_socket. induction ap as [|[k v] ap IH]; simpl; auto.
  rewrite String.eqb_sym. destruct (id =? k); auto.
Qed.

(** X18: the debug listing counts the stored sessions (not the playerId
    pointers) and shows for each session the connection its playerId
    resolves to, or none; when the two views agree that is, entry by
    entry, the connection the session is stored under. *)
Theorem debug_listing_shows_resolved_socket (st : state) :
  fst (debug_active_players st) = JSMap.size (playerSockets st) /\
  map DebugPlayer.socketId (snd (debug_active_players st))
  = map (fun pd => resolve (playerId pd) st) (JSMap.values (playerSockets st)) /\
  (consistent st -> JSMap.wf (playerSockets st) ->
     map DebugPlayer.socketId (snd (debug_active_players st))
     = map Some (JSMap.keys (playerSockets st))).
Proof.
  unfold debug_active_players. cbn [fst snd].
  assert (Hsock : map DebugPlayer.socketId
                    (map (fun p =>
                            {| DebugPlayer.playerId := playerId p;
                               DebugPlayer.username := username p;
                               DebugPlayer.house := house p;
                               DebugPlayer.socketId :=
                                 entry_socket (playerId p) (activePlayers st) |})
                       (JSMap.values (playerSockets st)))
                  = map (fun pd => resolve (playerId pd) st)
                      (JSMap.values (playerSockets st))).
  { rewrite map_map. apply map_ext. intros pd. simpl. apply entry_socket_get. }
  split; [|split].
  - rewrite length_map. unfold JSMap.values, JSMap.size. apply length_map.
  - exact Hsock.
  - intros [Hps _] Hwf. rewrite Hsock.
    unfold JSMap.values, JSMap.keys. rewrite !map_map.
    apply map_ext_in. intros [k pd] Hin. simpl.
    apply Hps. now apply in_get.
Qed.

Lemma debug_listing_shows_resolved_socket_witness :
  map DebugPlayer.socketId (snd (debug_active_players two_players))
  = [Some "c1"; Some "c2"].
Proof.
  rewrite (proj2 (proj2 (debug_listing_shows_resolved_socket two_players))).
  - reflexivity.
  - apply exec_consistent; [exact consistent_initial|].
    simpl. unfold join_pairs_up. simpl.
    repeat split; auto; intros; try discriminate.
    all: match goal with
         | H : _ = Some _ |- _ => vm_compute in H; injection H as <-; reflexivity
         end.
  - vm_compute. repeat constructor; simpl; intuition discriminate.
Defined.

End RestRoutes.

(** ** Arithmetic on counts *)

Lemma to_double_exact (z : Z) : (Z.abs z < TWO_53)%Z -> to_double z = z.
Proof.
  intros H. unfold to_double.
  destruct (Z.ltb_spec (Z.abs z) TWO_53); [reflexivity|lia].
Qed.

Lemma js_add_exact (a b : Z) : (Z.abs (a + b) < TWO_53)%Z -> js_add a b = (a + b)%Z.
Proof. apply to_double_exact. Qed.

Lemma js_sub_exact (a b : Z) : (Z.abs (a - b) < TWO_53)%Z -> js_sub a b = (a - b)%Z.
Proof. apply to_double_exact. Qed.

(** Beyond 2^53 a sum is rounded: ties go to the even significand. *)
Lemma js_add_rounds_beyond_exact_range :
  js_add TWO_53 1 = TWO_53 /\
  js_add TWO_54 10 = (TWO_54 + 8)%Z /\
  js_add TWO_53 5 = (TWO_53 + 4)%Z /\
  js_sub (TWO_53 + 2) 1 = TWO_53.
Proof. repeat split; vm_compute; reflexivity. Qed.

Lemma round_half_even_bounds (n d : Z) :
  (n / d <= round_half_even n d <= n / d + 1)%Z.
Proof.
  unfold round_half_even.
  destruct (2 * (n mod d) <? d)%Z; [lia|].
  destruct (d <? 2 * (n mod d))%Z; [lia|].
  destruct (Z.even (n / d)); lia.
Qed.

(** Below 2^52 the rounded quotient has the floor of the exact one. *)
Lemma js_floor_div_exact (a b : Z) :
  (0 <= a < 4503599627370496)%Z -> (0 < b < 4503599627370496)%Z ->
  js_floor_div a b = (a / b)%Z.
Proof.
  intros Ha Hb. unfold js_floor_div, quotient_double.
  rewrite Z.abs_eq by lia.
  pose proof (Z.div_mod a b ltac:(lia)) as Hdm.
  pose proof (Z.mod_pos_bound a b ltac:(lia)) as Hr.
  assert (Hq0 : (0 <= a / b)%Z) by (apply Z.div_pos; lia).
  destruct (Z.eqb_spec (a / b) 0) as [Hq|Hq].
  - destruct (Z.eqb_spec a 0) as [->|Hne].
    + reflexivity.
    + assert (Hlt : (a < b)%Z) by nia.
      destruct (Z.leb_spec ((b - a) * TWO_54) b) as [Hup|_].
      * unfold TWO_54 in Hup. nia.
      * cbn [Z.leb Z.compare Z.opp]. rewrite Z.sgn_pos by lia.
        rewrite Hq. reflexivity.
  - assert (Hqpos : (0 < a / b)%Z) by lia.
    assert (Hapos : (0 < a)%Z) by nia.
    set (q := (a / b)%Z) in *.
    destruct (Z.log2_spec q Hqpos) as [Hlo _].
    pose proof (Z.log2_nonneg q) as Hl0.
    assert (Hqa : (q <= a)%Z) by nia.
    assert (Hl : (Z.log2 q < 52)%Z).
    { apply Z.log2_lt_pow2; [exact Hqpos|].
      change (2 ^ 52)%Z with 4503599627370496%Z. lia. }
    set (l := Z.log2 q) in *.
    destruct (Z.leb_spec 0 (l - 52)) as [Hge|_]; [lia|].
    destruct (Z.leb_spec 0 (l - 52)) as [Hge|_]; [lia|].
    rewrite Z.sgn_pos, Z.mul_1_l by lia.
    replace (- (l - 52))%Z with (52 - l)%Z by lia.
    set (P := (2 ^ (52 - l))%Z).
    assert (HP : (P * 2 ^ l = 4503599627370496)%Z).
    { unfold P. rewrite <- Z.pow_add_r by lia.
      replace (52 - l + l)%Z with 52%Z by lia. reflexivity. }
    assert (HP0 : (0 < P)%Z) by (unfold P; apply Z.pow_pos_nonneg; lia).
    assert (HPb : (b < P)%Z) by nia.
    pose proof (round_half_even_bounds (a * P) b) as [HM1 HM2].
    assert (Hlow : (q * P <= a * P / b)%Z).
    { apply Z.div_le_lower_bound; [lia|]. nia. }
    assert (Hhigh : (a * P / b < (q + 1) * P - 1)%Z).
    { apply Z.div_lt_upper_bound; [lia|]. nia. }
    symmetry.
    apply (Z.div_unique _ P q (round_half_even (a * P) b - q * P)); lia.
Qed.

(** Far beyond 2^53 the quotient of the division by 20 is rounded up, and
    the progress no longer matches the experience total. *)
Lemma level_beyond_exact_range :
  calculateLevelAndProgress 90071992547409936 = (900719925474099, 2)%Z /\
  fst (calculateLevelAndProgress 90071992547410096) = 900719925474101%Z.
Proof. split; vm_compute; reflexivity. Qed.

Lemma level_and_progress_exact (xp : Z) :
  (0 <= xp < 4503599627370496)%Z ->
  calculateLevelAndProgress xp = ((xp / 20 / 5)%Z, ((xp / 20) mod 5)%Z).
Proof.
  intros Hxp. unfold calculateLevelAndProgress, XP_PER_SEGMENT,
    SEGMENTS_PER_LEVEL.
  rewrite (js_floor_div_exact xp 20) by lia.
  assert (Hseg : (0 <= xp / 20 < 4503599627370496)%Z).
  { split; [apply Z.div_pos; lia|].
    apply Z.div_lt_upper_bound; lia. }
  rewrite (js_floor_div_exact (xp / 20) 5) by lia.
  rewrite Z.rem_mod_nonneg by lia. reflexivity.
Qed.

(** ** Levels and level-up rewards *)

(** X19: for an integer experience total from 0 up to 2^52 (where the
    double division by 20 and by 5 is still exact after [Math.floor]) the
    level is not negative, the progress lies between 0 and 4, and the
    total lies in the 20-point window that starts at
    100 * level + 20 * progress. *)
Theorem level_and_progress_bounds (xp : Z) :
  (0 <= xp < 4503599627370496)%Z ->
  let level := fst (calculateLevelAndProgress xp) in
  let progress := snd (calculateLevelAndProgress xp) in
  (0 <= level)%Z /\ (0 <= progress <= 4)%Z /\
  (100 * level + 20 * progress <= xp < 100 * level + 20 * progress + 20)%Z.
Proof.
  intros Hxp level progress. unfold level, progress.
  rewrite (level_and_progress_exact xp Hxp). cbn [fst snd].
  assert (Hseg : (0 <= xp / 20)%Z) by (apply Z.div_pos; lia).
  pose proof (Z.div_mod xp 20 ltac:(lia)) as H1.
  pose proof (Z.mod_pos_bound xp 20 ltac:(lia)) as H2.
  pose proof (Z.div_mod (xp / 20) 5 ltac:(lia)) as H3.
  pose proof (Z.mod_pos_bound (xp / 20) 5 ltac:(lia)) as H4.
  assert (0 <= xp / 20 / 5)%Z by (apply Z.div_pos; lia).
  lia.
Qed.

Lemma level_and_progress_bounds_witness :
  calculateLevelAndProgress 275 = (2, 3)%Z /\
  (100 * 2 + 20 * 3 <= 275 < 100 * 2 + 20 * 3 + 20)%Z.
Proof.
  split; [reflexivity|].
  pose proof (level_and_progress_bounds 275 ltac:(lia)) as H.
  vm_compute in H. vm_compute. intuition discriminate.
Defined.

(** X20: for integer experience totals from 0 up to 2^52, a player is at
    level [l] or above exactly from 100 * l experience points on, so the
    level never decreases when experience grows, and a total of
    100 * l + 20 * p + r with p below 5 and r below 20 is level [l] with
    progress [p]. *)
Theorem level_thresholds (xp : Z) :
  (0 <= xp < 4503599627370496)%Z ->
  (forall l, (l <= fst (calculateLevelAndProgress xp))%Z <-> (100 * l <= xp)%Z) /\
  (forall xp', (xp <= xp' < 4503599627370496)%Z ->
     (fst (calculateLevelAndProgress xp)
      <= fst (calculateLevelAndProgress xp'))%Z) /\
  (forall l p r, (0 <= p < 5)%Z -> (0 <= r < 20)%Z ->
     xp = (100 * l + 20 * p + r)%Z ->
     calculateLevelAndProgress xp = (l, p)).
Proof.
  intros Hxp.
  assert (Hlevel : forall x, (0 <= x < 4503599627370496)%Z ->
            fst (calculateLevelAndProgress x) = (x / 100)%Z).
  { intros x Hx. rewrite (level_and_progress_exact x Hx). cbn [fst].
    rewrite Z.div_div by lia. reflexivity. }
  split; [|split].
  - intros l. rewrite Hlevel by assumption.
    pose proof (Z.div_mod xp 100 ltac:(lia)).
    pose proof (Z.mod_pos_bound xp 100 ltac:(lia)). lia.
  - intros xp' Hle. rewrite !Hlevel by lia.
    apply Z.div_le_mono; lia.
  - intros l p r Hp Hr Heq.
    rewrite (level_and_progress_exact xp Hxp). subst xp.
    assert (Hseg : ((100 * l + 20 * p + r) / 20 = 5 * l + p)%Z).
    { symmetry. apply (Z.div_unique _ 20 _ r); lia. }
    rewrite Hseg. f_equal.
    + symmetry. apply (Z.div_unique _ 5 _ p); lia.
    + symmetry. apply (Z.mod_unique _ 5 l p); lia.
Qed.

Lemma level_thresholds_witness :
  (3 <= fst (calculateLevelAndProgress 300))%Z /\
  calculateLevelAndProgress 275 = (2, 3)%Z.
Proof.
  split.
  - apply (proj1 (level_thresholds 300 ltac:(lia))). lia.
  - apply (proj2 (proj2 (level_thresholds 275 ltac:(lia))) 2 3 15)%Z; lia.
Defined.

Lemma includes_In s l : includes s l = true <-> In s l.
Proof.
  unfold includes. rewrite existsb_exists. split.
  - intros (s' & Hin & Heq). apply String.eqb_eq in Heq. now subst.
  - intros Hin. exists s. split; [exact Hin | apply String.eqb_refl].
Qed.

Lemma unlock_loop_spec (newLevel : Z) (table : list (string * Z))
  (held won : list string) :
  exists extra,
    unlock_loop newLevel table held won = (held ++ extra, won ++ extra) /\
    (forall s, In s extra -> In (s, newLevel) table /\ ~ In s held) /\
    (NoDup held -> NoDup (held ++ extra)).
Proof.
  unfold unlock_loop. revert held won.
  induction table as [|[name lvl] table IH]; intros held won; simpl.
  - exists []. rewrite !app_nil_r.
    split; [reflexivity|]. split; [intros s []|auto].
  - destruct (Z.eqb_spec lvl newLevel) as [->|Hlvl]; simpl.
    + destruct (includes name held) eqn:Hinc; simpl.
      * destruct (IH held won) as (extra & Heq & Hin & Hnd).
        exists extra. split; [exact Heq|]. split; [|exact Hnd].
        intros s Hs. destruct (Hin s Hs). split; [now right|assumption].
      * assert (Hnot : ~ In name held).
        { intros H. apply includes_In in H. congruence. }
        destruct (IH (held ++ [name]) (won ++ [name]))
          as (extra & Heq & Hin & Hnd).
        exists (name :: extra). rewrite Heq, <- !app_assoc. simpl.
        split; [reflexivity|]. split.
        -- intros s [<-|Hs].
           ++ split; [now left|assumption].
           ++ destruct (Hin s Hs) as [Ht Hn]. split; [now right|].
              intros H. apply Hn. apply in_or_app. now left.
        -- intros Hheld.
           replace (held ++ name :: extra) with ((held ++ [name]) ++ extra)
             by (rewrite <- app_assoc; reflexivity).
           apply Hnd. apply NoDup_app; auto.
           ++ constructor; [simpl; tauto|constructor].
           ++ intros a Ha [<-|[]]. contradiction.
    + destruct (IH held won) as (extra & Heq & Hin & Hnd).
      exists extra. split; [exact Heq|]. split; [|exact Hnd].
      intros s Hs. destruct (Hin s Hs). split; [now right|assumption].
Qed.

Ltac exact_arith :=
  repeat match goal with
    | |- context [js_add ?a ?b] =>
        rewrite (js_add_exact a b) by (unfold TWO_53 in *; lia)
    | |- context [js_sub ?a ?b] =>
        rewrite (js_sub_exact a b) by (unfold TWO_53 in *; lia)
    end.

(** X21: for integer galleons, maxHealth and horcruxes that stay below
    2^53 (where double addition is exact), a level-up reports what it
    applies: the galleons, maxHealth, horcruxes and spells of the document
    grow by exactly the reported rewards.  The galleons are 10, 20 or 45
    and the health increase 5 or 55; at a level that yields a horcrux the
    current health ends 5 below the new maxHealth, otherwise it is
    untouched.  Only spells whose unlock level is the new level and that
    the player lacked are added, so a spell list without repetitions
    stays without repetitions. *)
Theorem level_up_reports_what_it_applies (player : Player.t)
  (oldLevel newLevel : Z) :
  (Z.abs (Player.galleons player) + 45 < TWO_53)%Z ->
  (Z.abs (Player.maxHealth player) + 55 < TWO_53)%Z ->
  (Z.abs (Player.horcruxes player) + 1 < TWO_53)%Z ->
  let player' := fst (handleLevelUp player oldLevel newLevel) in
  let rewards := snd (handleLevelUp player oldLevel newLevel) in
  Player.galleons player'
  = (Player.galleons player + Rewards.galleons rewards)%Z /\
  Player.maxHealth player'
  = (Player.maxHealth player + Rewards.healthIncrease rewards)%Z /\
  Player.unlockedSpells player'
  = Player.unlockedSpells player ++ Rewards.spells rewards /\
  Player.horcruxes player'
  = (Player.horcruxes player + if Rewards.horcrux rewards then 1 else 0)%Z /\
  (Rewards.galleons rewards = 10 \/ Rewards.galleons rewards = 20 \/
   Rewards.galleons rewards = 45)%Z /\
  (Rewards.healthIncrease rewards
   = if Rewards.horcrux rewards then 55 else 5)%Z /\
  (Player.currentHealth player'
   = if Rewards.horcrux rewards then Player.maxHealth player' - 5
     else Player.currentHealth player)%Z /\
  (forall s, In s (Rewards.spells rewards) ->
     In (s, newLevel) SPELL_UNLOCKS /\ ~ In s (Player.unlockedSpells player)) /\
  (NoDup (Player.unlockedSpells player) ->
   NoDup (Player.unlockedSpells player')).
Proof.
  intros Hg Hm Hh player' rewards. unfold player', rewards, handleLevelUp.
  destruct (unlock_loop_spec newLevel SPELL_UNLOCKS
              (Player.unlockedSpells player) [])
    as (extra & Heq & Hin & Hnd).
  rewrite Heq. cbn [fst snd Player.galleons Player.maxHealth
                    Player.unlockedSpells Player.horcruxes
                    Player.currentHealth Rewards.galleons
                    Rewards.healthIncrease Rewards.spells Rewards.horcrux
                    app].
  unfold GALLEONS_PER_LEVEL, HORCRUX_EVERY_N_LEVELS,
    HEALTH_INCREASE_PER_HORCRUX, HEALTH_INCREASE_PER_LEVEL.
  assert (Hdiv : Z.rem newLevel 10 = 0%Z -> Z.rem newLevel 5 = 0%Z).
  { intros H. apply Z.rem_divide in H; [|lia]. apply Z.rem_divide; [lia|].
    destruct H as [k ->]. exists (k * 2)%Z. lia. }
  destruct (Z.eqb_spec (Z.rem newLevel 10) 0) as [H10|H10].
  - rewrite (Hdiv H10). cbn [Z.eqb]. exact_arith.
    repeat match goal with |- _ /\ _ => split end;
      try reflexivity; try lia; assumption.
  - destruct (Z.rem newLevel 5 =? 0)%Z; exact_arith;
      repeat match goal with |- _ /\ _ => split end;
      try reflexivity; try lia; assumption.
Qed.

Lemma level_up_reports_what_it_applies_witness :
  NoDup (Player.unlockedSpells (fst (handleLevelUp fresh_player 9 10))) /\
  Player.currentHealth (fst (handleLevelUp fresh_player 9 10))
  = (Player.maxHealth (fst (handleLevelUp fresh_player 9 10)) - 5)%Z.
Proof.
  destruct (level_up_reports_what_it_applies fresh_player 9 10
              ltac:(vm_compute; reflexivity) ltac:(vm_compute; reflexivity)
              ltac:(vm_compute; reflexivity))
    as (_ & _ & _ & _ & _ & _ & Hcur & _ & Hnd).
  split.
  - apply Hnd. vm_compute. repeat constructor; simpl; intuition discriminate.
  - exact Hcur.
Defined.

(** ** Inventory of the player document *)

Section FirstMatch.
Context {A : Type} (f : A -> bool).

Lemma split_at_first (l : list A) :
  (forall x, In x l -> f x = false) \/
  exists pre it post,
    l = pre ++ it :: post /\ f it = true /\
    (forall x, In x pre -> f x = false).
Proof.
  induction l as [|a l IH].
  - left. intros x [].
  - destruct (f a) eqn:Ea.
    + right. exists [], a, l. repeat split; auto. intros x [].
    + destruct IH as [Hnone|(pre & it & post & -> & Hit & Hpre)].
      * left. intros x [<-|Hin]; auto.
      * right. exists (a :: pre), it, post. repeat split; auto.
        intros x [<-|Hin]; auto.
Qed.

Lemma find_absent (l : list A) :
  (forall x, In x l -> f x = false) -> find f l = None.
Proof.
  induction l as [|a l IH]; simpl; auto. intros H.
  rewrite (H a (or_introl eq_refl)). apply IH. intros x Hx. apply H. now right.
Qed.

Lemma find_at (pre post : list A) (it : A) :
  f it = true -> (forall x, In x pre -> f x = false) ->
  find f (pre ++ it :: post) = Some it.
Proof.
  intros Hit. induction pre as [|a pre IH]; simpl; intros Hpre.
  - now rewrite Hit.
  - rewrite (Hpre a (or_introl eq_refl)). apply IH. intros x Hx. apply Hpre.
    now right.
Qed.

Lemma find_skip (pre post : list A) (a : A) :
  f a = false -> find f (pre ++ a :: post) = find f (pre ++ post).
Proof.
  intros Ha. induction pre as [|b pre IH]; simpl.
  - now rewrite Ha.
  - now rewrite IH.
Qed.

Lemma findIndex_absent (l : list A) :
  (forall x, In x l -> f x = false) -> findIndex f l = None.
Proof.
  induction l as [|a l IH]; simpl; auto. intros H.
  rewrite (H a (or_introl eq_refl)).
  rewrite IH; [reflexivity|]. intros x Hx. apply H. now right.
Qed.

Lemma findIndex_at (pre post : list A) (it : A) :
  f it = true -> (forall x, In x pre -> f x = false) ->
  findIndex f (pre ++ it :: post) = Some (List.length pre).
Proof.
  intros Hit. induction pre as [|a pre IH]; simpl; intros Hpre.
  - now rewrite Hit.
  - rewrite (Hpre a (or_introl eq_refl)).
    rewrite IH; [reflexivity|]. intros x Hx. apply Hpre. now right.
Qed.

End FirstMatch.

Lemma nth_error_at {A : Type} (pre post : list A) (it : A) :
  nth_error (pre ++ it :: post) (List.length pre) = Some it.
Proof. induction pre; simpl; auto. Qed.

Lemma splice1_at {A : Type} (pre post : list A) (it : A) :
  splice1 (List.length pre) (pre ++ it :: post) = pre ++ post.
Proof.
  unfold splice1. induction pre as [|a pre IH]; simpl; auto.
  f_equal. exact IH.
Qed.

Lemma assign_at {A : Type} (pre post : list A) (it y : A) :
  assign (List.length pre) y (pre ++ it :: post) = pre ++ y :: post.
Proof. induction pre as [|a pre IH]; simpl; auto. now f_equal. Qed.

Lemma add_to_first_at (id : string) (q : Z) (pre post : list Item.t)
  (it : Item.t) :
  Item.itemId it = id ->
  (forall x, In x pre -> (Item.itemId x =? id) = false) ->
  add_to_first id q (pre ++ it :: post)
  = pre ++ {| Item.itemId := id; Item.quantity := js_add (Item.quantity it) q |}
        :: post.
Proof.
  intros Hit. induction pre as [|a pre IH]; simpl; intros Hpre.
  - rewrite Hit, String.eqb_refl. reflexivity.
  - rewrite (Hpre a (or_introl eq_refl)). f_equal. apply IH.
    intros x Hx. apply Hpre. now right.
Qed.

Lemma not_named_iff (id : string) (l : list Item.t) :
  (forall x, In x l -> (Item.itemId x =? id) = false) <-> ~ In id (item_ids l).
Proof.
  unfold item_ids. split.
  - intros H Hin. apply in_map_iff in Hin as (x & Hx & Hin).
    specialize (H x Hin). rewrite Hx, String.eqb_refl in H. discriminate.
  - intros H x Hin. destruct (String.eqb_spec (Item.itemId x) id) as [Heq|]; auto.
    exfalso. apply H. apply in_map_iff. now exists x.
Qed.

Lemma removeItem_nonempty (id : string) (q : Z) (l : list Item.t) :
  l <> [] ->
  removeItem id q (Some l)
  = match findIndex (fun it => Item.itemId it =? id) l with
    | None => inl ItemNotFound
    | Some itemIndex =>
        match nth_error l itemIndex with
        | None => inl ItemNotFound
        | Some item =>
            if (Item.quantity item <? q)%Z then inl InsufficientQuantity
            else
              if (js_sub (Item.quantity item) q <=? 0)%Z
              then inr (Some (splice1 itemIndex l))
              else inr (Some (assign itemIndex
                                {| Item.itemId := Item.itemId item;
                                   Item.quantity := js_sub (Item.quantity item) q |}
                                l))
        end
    end.
Proof. destruct l; [congruence|reflexivity]. Qed.

(** The result of [removeItem] on an inventory whose first entry named
    [id] is [it]. *)
Lemma removeItem_at (id : string) (q : Z) (pre post : list Item.t)
  (it : Item.t) :
  Item.itemId it = id ->
  (forall x, In x pre -> (Item.itemId x =? id) = false) ->
  removeItem id q (Some (pre ++ it :: post))
  = if (Item.quantity it <? q)%Z then inl InsufficientQuantity
    else if (js_sub (Item.quantity it) q <=? 0)%Z then inr (Some (pre ++ post))
         else inr (Some (pre ++ {| Item.itemId := id;
                                   Item.quantity := js_sub (Item.quantity it) q |}
                               :: post)).
Proof.
  intros Hit Hpre.
  rewrite removeItem_nonempty by (destruct pre; discriminate).
  rewrite (findIndex_at _ pre post it) by (auto; rewrite Hit; apply String.eqb_refl).
  rewrite nth_error_at, splice1_at, assign_at, Hit. reflexivity.
Qed.

Lemma removeItem_absent (id : string) (q : Z) (inv : option (list Item.t)) :
  ~ In id (item_ids (items inv)) -> removeItem id q inv = inl ItemNotFound.
Proof.
  intros H. destruct inv as [[|a l]|]; try reflexivity.
  rewrite removeItem_nonempty by discriminate.
  rewrite findIndex_absent; [reflexivity|]. now apply not_named_iff.
Qed.

Lemma quantity_at (id : string) (pre post : list Item.t) (it : Item.t) :
  Item.itemId it = id ->
  (forall x, In x pre -> (Item.itemId x =? id) = false) ->
  getItemQuantity id (Some (pre ++ it :: post)) = Item.quantity it.
Proof.
  intros Hit Hpre. unfold getItemQuantity.
  rewrite (find_at _ pre post it); auto. rewrite Hit. apply String.eqb_refl.
Qed.

Lemma quantity_absent (id : string) (inv : option (list Item.t)) :
  ~ In id (item_ids (items inv)) -> getItemQuantity id inv = 0%Z.
Proof.
  intros H. destruct inv as [l|]; [|reflexivity]. unfold getItemQuantity.
  rewrite find_absent; [reflexivity|]. now apply not_named_iff.
Qed.

Lemma quantity_skip (id' : string) (pre post : list Item.t) (a : Item.t) :
  Item.itemId a <> id' ->
  getItemQuantity id' (Some (pre ++ a :: post))
  = getItemQuantity id' (Some (pre ++ post)).
Proof.
  intros Ha. unfold getItemQuantity. rewrite find_skip; [reflexivity|].
  now apply String.eqb_neq.
Qed.

Lemma item_ids_app (l1 l2 : list Item.t) :
  item_ids (l1 ++ l2) = item_ids l1 ++ item_ids l2.
Proof. apply map_app. Qed.

Section Inventory.
Variables (id : string) (q : Z) (inv : option (list Item.t)).

(** X22: adding [q] of an item leaves the quantity of every other item as
    it was, leaves the item listed, keeps a list without repeated item ids
    free of repeats, and, for integer quantities whose sum stays below
    2^53 (where double addition is exact), raises the quantity read back
    for the item by exactly [q]: from 0 when it was not listed, and also
    when the inventory did not exist. *)
Theorem add_item_raises_quantity :
  (forall id', id' <> id ->
     getItemQuantity id' (addItem id q inv) = getItemQuantity id' inv) /\
  ((Z.abs (getItemQuantity id inv + q) < TWO_53)%Z ->
   getItemQuantity id (addItem id q inv) = (getItemQuantity id inv + q)%Z) /\
  In id (item_ids (items (addItem id q inv))) /\
  (NoDup (item_ids (items inv)) ->
   NoDup (item_ids (items (addItem id q inv)))).
Proof.
  assert (Hinv : forall id', getItemQuantity id' inv
                             = getItemQuantity id' (Some (items inv)))
    by (intros; now destruct inv).
  destruct (split_at_first (fun it => Item.itemId it =? id) (items inv))
    as [Hnone|(pre & it & post & Hl & Hit & Hpre)].
  - assert (Hadd : addItem id q inv
                   = Some (items inv ++ [{| Item.itemId := id;
                                            Item.quantity := q |}])).
    { unfold addItem. now rewrite find_absent. }
    rewrite Hadd. split; [|split; [|split]].
    + intros id' Hne. rewrite (Hinv id').
      rewrite quantity_skip by (simpl; congruence).
      now rewrite app_nil_r.
    + intros _. rewrite (Hinv id).
      rewrite (quantity_at id (items inv) []) by auto.
      rewrite (quantity_absent id (Some (items inv)))
        by (now apply not_named_iff).
      simpl. lia.
    + simpl. rewrite item_ids_app. apply in_or_app. right. now left.
    + intros Hnd. simpl. rewrite item_ids_app. apply NoDup_app; auto.
      * constructor; [simpl; tauto|constructor].
      * intros a Ha [<-|[]]. revert Ha. now apply not_named_iff.
  - apply String.eqb_eq in Hit.
    assert (Hadd : addItem id q inv
                   = Some (pre ++ {| Item.itemId := id;
                                     Item.quantity := js_add (Item.quantity it) q |}
                               :: post)).
    { unfold addItem. rewrite Hl.
      rewrite (find_at _ pre post it)
        by (auto; rewrite Hit; apply String.eqb_refl).
      now rewrite add_to_first_at. }
    rewrite Hadd. split; [|split; [|split]].
    + intros id' Hne. rewrite (Hinv id'), Hl.
      rewrite !quantity_skip by (simpl; congruence). reflexivity.
    + rewrite (Hinv id), Hl. rewrite !quantity_at by auto.
      intros Hexact. simpl. now apply js_add_exact.
    + simpl. rewrite item_ids_app. apply in_or_app. right. now left.
    + rewrite Hl. simpl. rewrite !item_ids_app. simpl. now rewrite Hit.
Qed.

(** X23: removing [q] of an item fails with "Item not found" exactly when
    the item is not listed (or there is no inventory) and with
    "Insufficient quantity" exactly when it is listed with less than [q];
    otherwise, on a list without repeated ids, other items keep their
    quantities, no id is repeated, and, for integer quantities below 2^53
    (where double subtraction is exact), the quantity read back drops by
    exactly [q] and the entry stays listed exactly when something is
    left. *)
Theorem remove_item_outcomes :
  (removeItem id q inv = inl ItemNotFound
   <-> ~ In id (item_ids (items inv))) /\
  (removeItem id q inv = inl InsufficientQuantity
   <-> In id (item_ids (items inv)) /\ (getItemQuantity id inv < q)%Z) /\
  (forall inv',
     removeItem id q inv = inr inv' ->
     NoDup (item_ids (items inv)) ->
     (forall id', id' <> id ->
        getItemQuantity id' inv' = getItemQuantity id' inv) /\
     NoDup (item_ids (items inv')) /\
     ((Z.abs (getItemQuantity id inv - q) < TWO_53)%Z ->
      getItemQuantity id inv' = (getItemQuantity id inv - q)%Z /\
      (In id (item_ids (items inv')) <-> (q < getItemQuantity id inv)%Z))).
Proof.
  destruct (split_at_first (fun it => Item.itemId it =? id) (items inv))
    as [Hnone|(pre & it & post & Hl & Hit & Hpre)].
  - assert (Habs : ~ In id (item_ids (items inv))) by now apply not_named_iff.
    rewrite (removeItem_absent id q inv Habs).
    split; [tauto|]. split; [|discriminate].
    split; [discriminate | tauto].
  - apply String.eqb_eq in Hit.
    assert (Hsome : inv = Some (pre ++ it :: post)).
    { destruct inv as [l|]; simpl in Hl; [now subst|].
      destruct pre; discriminate. }
    assert (Hin : In id (item_ids (items inv))).
    { rewrite Hl, item_ids_app. apply in_or_app. right. left. exact Hit. }
    rewrite Hsome. rewrite (removeItem_at id q pre post it Hit Hpre).
    rewrite (quantity_at id pre post it Hit Hpre).
    rewrite Hsome in Hin.
    destruct (Z.ltb_spec (Item.quantity it) q) as [Hlt|Hge].
    + split; [split; [discriminate|tauto]|].
      split; [tauto|discriminate].
    + destruct (Z.leb_spec (js_sub (Item.quantity it) q) 0) as [Hzero|Hleft].
      * split; [split; [discriminate|tauto]|].
        split; [split; [discriminate|lia]|].
        intros inv' [= <-] Hnd. simpl in Hnd. rewrite item_ids_app in Hnd.
        simpl in Hnd. rewrite Hit in Hnd.
        pose proof (NoDup_remove_2 _ _ _ Hnd) as Hgone.
        apply NoDup_remove_1 in Hnd.
        split; [|split].
        -- intros id' Hne. symmetry. apply quantity_skip. congruence.
        -- simpl. now rewrite item_ids_app.
        -- intros Hexact. rewrite (js_sub_exact _ _ Hexact) in Hzero. split.
           ++ rewrite quantity_absent; [lia|]. simpl. now rewrite item_ids_app.
           ++ simpl. rewrite item_ids_app. split; [tauto|lia].
      * split; [split; [discriminate|tauto]|].
        split; [split; [discriminate|lia]|].
        intros inv' [= <-] Hnd.
        split; [|split].
        -- intros id' Hne. rewrite !quantity_skip by (simpl; congruence).
           reflexivity.
        -- simpl in *. rewrite item_ids_app in *. simpl in *.
           now rewrite Hit in Hnd.
        -- intros Hexact. rewrite (js_sub_exact _ _ Hexact) in Hleft. split.
           ++ rewrite quantity_at by auto. simpl. now apply js_sub_exact.
           ++ simpl. rewrite item_ids_app. simpl. split; [lia|].
              intros _. apply in_or_app. right. now left.
Qed.

(** X24: on a list without repeated ids, for an integer quantity of the
    item that is not negative and such that it and its sum with [q] stay
    below 2^53 (where double addition and subtraction are exact), adding
    [q] of the item and then removing [q] of it succeeds and gives every
    item the quantity it had before. *)
Theorem add_then_remove_restores :
  NoDup (item_ids (items inv)) ->
  (0 <= getItemQuantity id inv < TWO_53)%Z ->
  (Z.abs (getItemQuantity id inv + q) < TWO_53)%Z ->
  exists inv',
    removeItem id q (addItem id q inv) = inr inv' /\
    forall id', getItemQuantity id' inv' = getItemQuantity id' inv.
Proof.
  intros Hnd Hq Hsum.
  assert (Hinv : forall id', getItemQuantity id' inv
                             = getItemQuantity id' (Some (items inv)))
    by (intros; now destruct inv).
  destruct (split_at_first (fun it => Item.itemId it =? id) (items inv))
    as [Hnone|(pre & it & post & Hl & Hit & Hpre)].
  - assert (Hadd : addItem id q inv
                   = Some (items inv ++ [{| Item.itemId := id;
                                            Item.quantity := q |}])).
    { unfold addItem. now rewrite find_absent. }
    rewrite Hadd, (removeItem_at id q (items inv) []) by auto. simpl.
    destruct (Z.ltb_spec q q); [lia|].
    unfold js_sub. rewrite Z.sub_diag. change (to_double 0) with 0%Z. simpl.
    eexists. split; [reflexivity|]. intros id'.
    now rewrite app_nil_r, <- Hinv.
  - apply String.eqb_eq in Hit.
    assert (Hadd : addItem id q inv
                   = Some (pre ++ {| Item.itemId := id;
                                     Item.quantity := js_add (Item.quantity it) q |}
                               :: post)).
    { unfold addItem. rewrite Hl.
      rewrite (find_at _ pre post it)
        by (auto; rewrite Hit; apply String.eqb_refl).
      now rewrite add_to_first_at. }
    rewrite (Hinv id), Hl, (quantity_at id pre post it Hit Hpre) in Hq, Hsum.
    rewrite Hadd, removeItem_at by auto. simpl.
    rewrite (js_add_exact _ _ Hsum).
    destruct (Z.ltb_spec (Item.quantity it + q) q); [lia|].
    rewrite js_sub_exact
      by (replace (Item.quantity it + q - q)%Z with (Item.quantity it) by lia;
          lia).
    rewrite Hl in Hnd. rewrite item_ids_app in Hnd. simpl in Hnd.
    rewrite Hit in Hnd. pose proof (NoDup_remove_2 _ _ _ Hnd) as Hgone.
    destruct (Z.leb_spec (Item.quantity it + q - q) 0) as [Hzero|Hleft].
    + eexists. split; [reflexivity|]. intros id'. rewrite (Hinv id'), Hl.
      destruct (string_dec id' id) as [->|Hne].
      * rewrite quantity_at by auto.
        rewrite quantity_absent; [lia|]. simpl. now rewrite item_ids_app.
      * rewrite quantity_skip by congruence. reflexivity.
    + eexists. split; [reflexivity|]. intros id'. rewrite (Hinv id'), Hl.
      destruct (string_dec id' id) as [->|Hne].
      * rewrite !quantity_at by auto. simpl. lia.
      * rewrite !quantity_skip by (simpl; congruence). reflexivity.
Qed.

(** X25: on a list without repeated ids, [hasItem] says yes exactly when
    the quantity read back for the item is positive; without an
    inventory it says no. *)
Theorem has_item_iff_positive_quantity :
  NoDup (item_ids (items inv)) ->
  hasItem id inv = (0 <? getItemQuantity id inv)%Z.
Proof.
  intros Hnd. destruct inv as [l|]; [|reflexivity]. simpl in Hnd.
  destruct (split_at_first (fun it => Item.itemId it =? id) l)
    as [Hnone|(pre & it & post & -> & Hit & Hpre)].
  - rewrite quantity_absent by (now apply not_named_iff). simpl.
    apply not_true_is_false. intros H. apply existsb_exists in H
      as (x & Hx & Hand). apply andb_true_iff in Hand as [Hname _].
    rewrite (Hnone x Hx) in Hname. discriminate.
  - pose proof Hit as Hid. apply String.eqb_eq in Hid.
    rewrite (quantity_at id pre post it Hid Hpre).
    rewrite item_ids_app in Hnd. simpl in Hnd. rewrite Hid in Hnd.
    pose proof (NoDup_remove_2 _ _ _ Hnd) as Hgone.
    unfold hasItem. rewrite existsb_app. simpl. rewrite Hit. simpl.
    assert (Hpre' : existsb (fun it0 => (Item.itemId it0 =? id)
                                        && (0 <? Item.quantity it0)%Z) pre
                    = false).
    { apply not_true_is_false. intros H. apply existsb_exists in H
        as (x & Hx & Hand). apply andb_true_iff in Hand as [Hname _].
      rewrite (Hpre x Hx) in Hname. discriminate. }
    assert (Hpost : existsb (fun it0 => (Item.itemId it0 =? id)
                                        && (0 <? Item.quantity it0)%Z) post
                    = false).
    { apply not_true_is_false. intros H. apply existsb_exists in H
        as (x & Hx & Hand). apply andb_true_iff in Hand as [Hname _].
      apply String.eqb_eq in Hname. apply Hgone. apply in_or_app. right.
      unfold item_ids. apply in_map_iff. now exists x. }
    rewrite Hpre', Hpost. simpl. now rewrite orb_false_r.
Qed.

End Inventory.

Lemma NoDup_sample_inventory : NoDup (item_ids (items sample_inventory)).
Proof. vm_compute. repeat constructor; simpl; intuition discriminate. Qed.

Lemma add_item_raises_quantity_witness :
  getItemQuantity "potion" (addItem "potion" 3 sample_inventory) = 5%Z /\
  NoDup (item_ids (items (addItem "potion" 3 sample_inventory))).
Proof.
  destruct (add_item_raises_quantity "potion" 3 sample_inventory)
    as (_ & Hq & _ & Hnd).
  split.
  - rewrite Hq; [reflexivity | vm_compute; reflexivity].
  - apply Hnd. exact NoDup_sample_inventory.
Defined.

Lemma remove_item_outcomes_witness :
  removeItem "broom" 1 sample_inventory = inl ItemNotFound /\
  removeItem "wand" 2 sample_inventory = inl InsufficientQuantity.
Proof.
  split.
  - apply (proj1 (remove_item_outcomes "broom" 1 sample_inventory)).
    vm_compute. intuition discriminate.
  - apply (proj1 (proj2 (remove_item_outcomes "wand" 2 sample_inventory))).
    split; [vm_compute; tauto | vm_compute; reflexivity].
Defined.

Lemma add_then_remove_restores_witness :
  exists inv',
    removeItem "potion" 3 (addItem "potion" 3 sample_inventory) = inr inv' /\
    getItemQuantity "potion" inv' = 2%Z.
Proof.
  destruct (add_then_remove_restores "potion" 3 sample_inventory
              NoDup_sample_inventory
              ltac:(vm_compute; split; [discriminate|reflexivity])
              ltac:(vm_compute; reflexivity))
    as (inv' & Hrem & Hq).
  exists inv'. split; [exact Hrem|]. now rewrite Hq.
Defined.

Lemma has_item_iff_positive_quantity_witness :
  hasItem "wand" sample_inventory = true.
Proof.
  rewrite (has_item_iff_positive_quantity "wand" sample_inventory
             NoDup_sample_inventory).
  reflexivity.
Defined.

(** ** Health and spells of the player document *)

(** X26: after [takeDamage] the current health is never below 0, the
    call reports death exactly when the health is then 0, and maxHealth
    is as before; for integer health and damage whose difference stays
    below 2^53 (where double subtraction is exact) the health is the old
    health minus the damage, cut off at 0; and for an integer damage
    total whose sum with the damage stays below 2^53 the damage taken so
    far grows by the full damage, also by the part that went beyond the
    health that was left. *)
Theorem take_damage_clamps_at_zero (dmg : Z) (p : Player.t) :
  let p' := fst (takeDamage dmg p) in
  let died := snd (takeDamage dmg p) in
  (0 <= Player.currentHealth p')%Z /\
  (died = true <-> Player.currentHealth p' = 0%Z) /\
  Player.maxHealth p' = Player.maxHealth p /\
  ((Z.abs (Player.currentHealth p - dmg) < TWO_53)%Z ->
   Player.currentHealth p' = Z.max 0 (Player.currentHealth p - dmg)) /\
  ((Z.abs (Player.damageTaken p + dmg) < TWO_53)%Z ->
   Player.damageTaken p' = (Player.damageTaken p + dmg)%Z).
Proof.
  intros p' died. unfold p', died, takeDamage.
  destruct (Z.leb_spec (js_sub (Player.currentHealth p) dmg) 0)
    as [Hdead|Halive]; cbn [fst snd with_health Player.currentHealth
                            Player.maxHealth Player.damageTaken].
  - split; [lia|]. split; [tauto|]. split; [reflexivity|]. split.
    + intros Hexact. rewrite (js_sub_exact _ _ Hexact) in Hdead. lia.
    + intros Hexact. now apply js_add_exact.
  - split; [lia|]. split; [split; [discriminate|lia]|].
    split; [reflexivity|]. split.
    + intros Hexact. rewrite (js_sub_exact _ _ Hexact) in *. lia.
    + intros Hexact. now apply js_add_exact.
Qed.

Lemma take_damage_clamps_at_zero_witness :
  Player.currentHealth (fst (takeDamage 130 fresh_player)) = 0%Z /\
  Player.damageTaken (fst (takeDamage 130 fresh_player)) = 130%Z.
Proof.
  destruct (take_damage_clamps_at_zero 130 fresh_player)
    as (_ & _ & _ & Hh & Ht).
  split.
  - rewrite Hh; [reflexivity | vm_compute; reflexivity].
  - rewrite Ht; [reflexivity | vm_compute; reflexivity].
Defined.

(** X27: [heal] never raises the health above maxHealth and returns the
    health it stores; for a player whose health is within maxHealth, and
    for integer health and amounts with the health and the sums and
    differences formed below 2^53 (where double addition and subtraction
    are exact), a heal by an amount that is not negative does not lower
    the health, and a hit that is survived followed by a heal of the same
    amount gives back the health held before the hit. *)
Theorem heal_is_capped_and_undoes_hit (amount : Z) (p : Player.t) :
  (Player.currentHealth p <= Player.maxHealth p)%Z ->
  (snd (heal amount p) <= Player.maxHealth p)%Z /\
  Player.currentHealth (fst (heal amount p)) = snd (heal amount p) /\
  ((0 <= amount)%Z ->
   (Z.abs (Player.currentHealth p + amount) < TWO_53)%Z ->
   (Player.currentHealth p <= snd (heal amount p))%Z) /\
  ((Z.abs (Player.currentHealth p) < TWO_53)%Z ->
   (Z.abs (Player.currentHealth p - amount) < TWO_53)%Z ->
   snd (takeDamage amount p) = false ->
   snd (heal amount (fst (takeDamage amount p))) = Player.currentHealth p).
Proof.
  intros Hmax. unfold heal, takeDamage. cbn [fst snd].
  split; [lia|]. split; [reflexivity|]. split.
  - intros Hpos Hexact. rewrite (js_add_exact _ _ Hexact). lia.
  - intros Hcur Hexact. rewrite (js_sub_exact _ _ Hexact).
    destruct (Z.leb_spec (Player.currentHealth p - amount) 0);
      cbn [fst snd with_health Player.currentHealth Player.maxHealth];
      [discriminate|].
    intros _. rewrite js_add_exact
      by (replace (Player.currentHealth p - amount + amount)%Z
            with (Player.currentHealth p) by lia; exact Hcur).
    lia.
Qed.

Lemma heal_is_capped_and_undoes_hit_witness :
  snd (heal 30 (fst (takeDamage 30 fresh_player))) = 100%Z.
Proof.
  apply (proj2 (proj2 (proj2 (heal_is_capped_and_undoes_hit 30 fresh_player
                                ltac:(simpl; lia))))).
  - vm_compute. reflexivity.
  - vm_compute. reflexivity.
  - reflexivity.
Defined.

(** X28: after [unlockSpell] the spell is held; unlocking a spell that is
    already held changes nothing, so unlocking twice is unlocking once;
    every spell held before is still held, and a list without
    repetitions stays without repetitions. *)
Theorem unlock_spell_is_idempotent (s : string) (spells : list string) :
  hasSpell s (unlockSpell s spells) = true /\
  (hasSpell s spells = true -> unlockSpell s spells = spells) /\
  unlockSpell s (unlockSpell s spells) = unlockSpell s spells /\
  (forall s', hasSpell s' spells = true ->
              hasSpell s' (unlockSpell s spells) = true) /\
  (NoDup spells -> NoDup (unlockSpell s spells)).
Proof.
  unfold hasSpell, unlockSpell.
  destruct (includes s spells) eqn:Hinc; simpl.
  - rewrite Hinc. simpl. repeat split; auto.
  - assert (Hnew : includes s (spells ++ [s]) = true).
    { apply includes_In. apply in_or_app. right. now left. }
    rewrite Hnew. simpl. split; [reflexivity|]. split; [discriminate|].
    split; [reflexivity|]. split.
    + intros s' H. apply includes_In. apply includes_In in H.
      apply in_or_app. now left.
    + intros Hnd. apply NoDup_app; auto.
      * constructor; [simpl; tauto|constructor].
      * intros a Ha [<-|[]]. apply includes_In in Ha. congruence.
Qed.

Lemma unlock_spell_is_idempotent_witness :
  unlockSpell "Lumos" ["Lumos"; "Stupefy"] = ["Lumos"; "Stupefy"].
Proof.
  apply (proj1 (proj2 (unlock_spell_is_idempotent "Lumos" ["Lumos"; "Stupefy"]))).
  reflexivity.
Defined.
